(** * Graph colouring by simulated annealing: a model of [graph.py]

    The algorithmic core of [graph.py] is embedded function by function:
    [generate_random_graph], [initial_solution], [cost], [neighbor],
    [simulated_annealing] and [find_optimal_coloring].

    Conventions of the embedding.
    - Python [int] is [Z]; Python [float] is an IEEE 754 binary64 number,
      a [spec_float] at precision 53 and maximal exponent 1024: products and
      quotients round to nearest even, underflow to zero and overflow to an
      infinity, and a comparison with NaN is false.  [ZeroDivisionError] for
      a division by a zero and [OverflowError] for an [int] too large to
      convert and for a [math.exp] that overflows are kept.
    - [math.exp] calls the [exp] of the C library, which Rocq does not have.
      The functions that reach it take the library as the argument [L] of
      class [Libm]; what a proof needs of its [exp] is the hypothesis
      [libm_ok L].
    - The module-level generator of [random] is an explicit state that is
      threaded through every function: a tape of draws and a position.
    - A Python exception is a value [Raise e]; a function that may raise and
      that consumes randomness lives in the monad [M].
    - A Python [dict] is an insertion-ordered association list; a
      [networkx.Graph] is its adjacency dictionary, a dict of neighbour
      dicts, both in insertion order.
    - The [while True] loop of [find_optimal_coloring] takes a fuel argument
      and answers [None] when the fuel is used up. *)

From Stdlib Require Import String.
From Stdlib Require Import List ZArith Bool Lia.
From Stdlib Require Import SpecFloat.
Import ListNotations.

Open Scope Z_scope.

(** ** Exceptions and results *)

Inductive exn : Type :=
| KeyError
| IndexError
| ValueError
| ZeroDivisionError
| OverflowError.

Inductive result (A : Type) : Type :=
| Ok (a : A)
| Raise (e : exn).

Arguments Ok {A} a.
Arguments Raise {A} e.

(** ** Floats *)

Definition float : Type := spec_float.

Definition prec : Z := 53.

Definition emax : Z := 1024.

(** [0.0] and [1.0] *)
Definition zero : float := S754_zero false.

Definition one : float := S754_finite false 4503599627370496 (-52).

(** [float(z)] for an [int]: the nearest double, [OverflowError] when there
    is none. *)
Definition float_of_int (z : Z) : result float :=
  match binary_normalize prec emax z 0 false with
  | S754_infinity _ => Raise OverflowError
  | d => Ok d
  end.

(** The double a decimal literal [num / den] denotes, for integers that
    are doubles: the quotient rounded to nearest. *)
Definition float_lit (num den : Z) : float :=
  SFdiv prec emax (binary_normalize prec emax num 0 false)
    (binary_normalize prec emax den 0 false).

(** [x * y] on floats *)
Definition fmul (x y : float) : float := SFmul prec emax x y.

(** [x / y] on floats *)
Definition float_div (x y : float) : result float :=
  match y with
  | S754_zero _ => Raise ZeroDivisionError
  | _ => Ok (SFdiv prec emax x y)
  end.

Definition is_finite (x : float) : bool :=
  match x with
  | S754_zero _ | S754_finite _ _ _ => true
  | _ => false
  end.

Definition is_infinite (x : float) : bool :=
  match x with
  | S754_infinity _ => true
  | _ => false
  end.

Definition is_nan (x : float) : bool :=
  match x with
  | S754_nan => true
  | _ => false
  end.

(** [x] is a zero, a finite number or an infinity with sign bit [s]. *)
Definition signed (s : bool) (x : float) : Prop :=
  match x with
  | S754_zero s' | S754_infinity s' | S754_finite s' _ _ => s' = s
  | S754_nan => False
  end.

(** The C library: its [exp] on doubles. *)
Class Libm : Type := { libm_exp : float -> float }.

(** [math.exp(x)]: the value of the C function; [ValueError] when that is
    a NaN for an [x] that is none, [OverflowError] when it is an infinity
    for a finite [x].  An underflow to zero is no error. *)
Definition math_exp {L : Libm} (x : float) : result float :=
  let r := libm_exp x in
  if is_nan r && negb (is_nan x) then Raise ValueError
  else if is_infinite r && is_finite x then Raise OverflowError
  else Ok r.

(** What the proofs use of the C function: [exp] of a zero is [1.0]; [exp]
    of a number that is not positive lies in [0, 1]; [exp] of a number that
    is not negative is at least [1.0], an infinity included. *)
Definition libm_ok (L : Libm) : Prop :=
  (forall s, libm_exp (S754_zero s) = one) /\
  (forall x, SFleb x zero = true ->
             SFleb zero (libm_exp x) = true /\ SFleb (libm_exp x) one = true) /\
  (forall x, SFleb zero x = true -> SFleb one (libm_exp x) = true).

(** ** The random source *)

(** One cell of the tape serves one call of the [random] module: [bits] is
    the raw integer a call of [randint] or [choice] reduces to its range,
    [uniform] is the float a call of [random.random] returns. *)
Record draw : Type := mkDraw { bits : nat; uniform : float }.

Record Random : Type := mkRandom { tape : nat -> draw; pos : nat }.

Definition peek (g : Random) : draw := tape g (pos g).

Definition advance (g : Random) : Random :=
  {| tape := tape g; pos := S (pos g) |}.

(** [random.random] returns a float in the half-open interval [0, 1). *)
Definition wf_random (g : Random) : Prop :=
  forall i : nat,
    SFleb zero (uniform (tape g i)) = true /\
    SFltb (uniform (tape g i)) one = true.

(** ** The monad of the core: randomness and exceptions *)

Definition M (A : Type) : Type := Random -> result (A * Random).

Definition ret {A : Type} (a : A) : M A := fun g => Ok (a, g).

Definition bind {A B : Type} (m : M A) (f : A -> M B) : M B :=
  fun g => match m g with
           | Ok (a, g') => f a g'
           | Raise e => Raise e
           end.

Definition lift {A : Type} (r : result A) : M A :=
  fun g => match r with
           | Ok a => Ok (a, g)
           | Raise e => Raise e
           end.

Declare Scope py_scope.
Delimit Scope py_scope with py.
Notation "x <- m ;; k" := (bind m (fun x => k))
  (at level 61, m at next level, right associativity) : py_scope.
Notation "' pat <- m ;; k" := (bind m (fun x => match x with pat => k end))
  (at level 61, pat pattern, m at next level, right associativity) : py_scope.
Open Scope py_scope.

(** [random.random()] *)
Definition random_random : M float :=
  fun g => Ok (uniform (peek g), advance g).

(** [random.randint(a, b)]: an integer of [a .. b], both ends included;
    [ValueError] on an empty range. *)
Definition random_randint (a b : Z) : M Z :=
  fun g => if b <? a then Raise ValueError
           else Ok (a + Z.of_nat (bits (peek g)) mod (b - a + 1), advance g).

(** [random.choice(seq)]: [IndexError] on an empty sequence. *)
Definition random_choice (seq : list Z) : M Z :=
  fun g => match seq with
           | [] => Raise IndexError
           | x :: _ => Ok (nth (bits (peek g) mod length seq)%nat seq x, advance g)
           end.

(** ** Python dictionaries with integer keys *)

Definition dict (V : Type) : Type := list (Z * V).

Fixpoint dict_get {V : Type} (d : dict V) (k : Z) : option V :=
  match d with
  | [] => None
  | (k', v) :: d' => if k' =? k then Some v else dict_get d' k
  end.

(** [d[k] = v]: an existing key keeps its place, a new key goes last. *)
Fixpoint dict_set {V : Type} (d : dict V) (k : Z) (v : V) : dict V :=
  match d with
  | [] => [(k, v)]
  | (k', v') :: d' => if k' =? k then (k', v) :: d' else (k', v') :: dict_set d' k v
  end.

Definition dict_keys {V : Type} (d : dict V) : list Z := map fst d.

Definition dict_mem {V : Type} (d : dict V) (k : Z) : bool :=
  existsb (Z.eqb k) (dict_keys d).

(** [d[k]] as an expression *)
Definition getitem {V : Type} (d : dict V) (k : Z) : result V :=
  match dict_get d k with
  | Some v => Ok v
  | None => Raise KeyError
  end.

(** ** networkx.Graph, as far as the core uses it *)

Definition node : Type := Z.

(** The adjacency dictionary [_adj]: node -> dict of neighbours.  An edge
    carries no attribute here, so a neighbour dict is kept as the list of
    its keys. *)
Definition Graph : Type := dict (list node).

(** [nx.Graph()] *)
Definition empty_graph : Graph := [].

(** [G.nodes()] *)
Definition nodes (G : Graph) : list node := dict_keys G.

Definition neighbors (G : Graph) (u : node) : list node :=
  match dict_get G u with
  | Some l => l
  | None => []
  end.

Definition add_node (G : Graph) (u : node) : Graph :=
  if dict_mem G u then G else dict_set G u [].

Definition add_neighbor (G : Graph) (u v : node) : Graph :=
  let nbrs := neighbors G u in
  dict_set G u (if existsb (Z.eqb v) nbrs then nbrs else nbrs ++ [v]).

(** [G.add_edge(u, v)]: both endpoints become nodes when they are not yet,
    then each is entered in the neighbour dict of the other. *)
Definition add_edge (G : Graph) (u v : node) : Graph :=
  add_neighbor (add_neighbor (add_node (add_node G u) v) u v) v u.

(** [G.edges()]: the nodes in order, and for each the neighbours that were
    not visited as nodes before; an edge is reported once. *)
Fixpoint edges_from (seen : list node) (adj : Graph) : list (node * node) :=
  match adj with
  | [] => []
  | (n, nbrs) :: adj' =>
      map (pair n) (filter (fun nbr => negb (existsb (Z.eqb nbr) seen)) nbrs)
      ++ edges_from (n :: seen) adj'
  end.

Definition edges (G : Graph) : list (node * node) := edges_from [] G.

(** [range(a, b)] *)
Definition range (a b : Z) : list Z :=
  map (fun k => a + Z.of_nat k) (seq 0 (Z.to_nat (b - a))).

(** ** The core of graph.py *)

Definition Coloring : Type := dict Z.

(** A [for] loop over a list whose body updates an accumulator. *)
Fixpoint for_each {A St : Type} (l : list A) (body : A -> St -> M St) (s : St) : M St :=
  match l with
  | [] => ret s
  | x :: l' => s' <- body x s ;; for_each l' body s'
  end.

Definition generate_random_graph (n_nodes : Z) (edge_probability : float)
  : M Graph :=
  for_each (range 0 n_nodes)
    (fun i G =>
       for_each (range (i + 1) n_nodes)
         (fun j G =>
            r <- random_random ;;
            if SFltb r edge_probability then ret (add_edge G i j) else ret G)
         G)
    empty_graph.

Definition initial_solution (G : Graph) (n_colors : Z) : M Coloring :=
  for_each (nodes G)
    (fun node d => c <- random_randint 0 (n_colors - 1) ;; ret (dict_set d node c))
    [].

Fixpoint cost_edges (es : list (node * node)) (coloring : Coloring) : result Z :=
  match es with
  | [] => Ok 0
  | (u, v) :: es' =>
      match getitem coloring u with
      | Raise e => Raise e
      | Ok cu =>
          match getitem coloring v with
          | Raise e => Raise e
          | Ok cv =>
              match cost_edges es' coloring with
              | Raise e => Raise e
              | Ok n => Ok ((if cu =? cv then 1 else 0) + n)
              end
          end
      end
  end.

Definition cost (G : Graph) (coloring : Coloring) : result Z :=
  cost_edges (edges G) coloring.

(** [coloring.copy()]: a new dict object with the same items.  Dicts are
    values here; the object store of module [Store] below tells the copy
    from its original. *)
Definition dict_copy {V : Type} (d : dict V) : dict V := d.

Definition neighbor (coloring : Coloring) (n_colors : Z) : M Coloring :=
  let new_coloring := dict_copy coloring in
  node <- random_choice (dict_keys new_coloring) ;;
  c <- random_randint 0 (n_colors - 1) ;;
  ret (dict_set new_coloring node c).

(** The variables of the loop of [simulated_annealing]. *)
Record sa_state : Type := mkState {
  current_solution : Coloring;
  current_cost : Z;
  best_solution : Coloring;
  best_cost : Z;
  temperature : float;
  cost_history : list Z
}.

(** The condition of line 40.  [or] evaluates its right operand only when
    the left one is false, and [<] evaluates [random.random()] before
    [math.exp(...)]; the [int] difference is converted before the division
    looks at its divisor. *)
Definition accept {L : Libm} (current_cost new_cost : Z) (temperature : float)
  : M bool :=
  if new_cost <? current_cost then ret true
  else
    r <- random_random ;;
    d <- lift (float_of_int (current_cost - new_cost)) ;;
    q <- lift (float_div d temperature) ;;
    e <- lift (math_exp q) ;;
    ret (SFltb r e).

(** Lines 41 to 45: the assignments made when the candidate is accepted. *)
Definition take (new_solution : Coloring) (new_cost : Z) (st : sa_state) : sa_state :=
  if new_cost <? best_cost st then
    {| current_solution := new_solution;
       current_cost := new_cost;
       best_solution := dict_copy new_solution;
       best_cost := new_cost;
       temperature := temperature st;
       cost_history := cost_history st |}
  else
    {| current_solution := new_solution;
       current_cost := new_cost;
       best_solution := best_solution st;
       best_cost := best_cost st;
       temperature := temperature st;
       cost_history := cost_history st |}.

(** Lines 46 and 47: the end of every iteration. *)
Definition record_and_cool (cooling_rate : float) (st : sa_state) : sa_state :=
  {| current_solution := current_solution st;
     current_cost := current_cost st;
     best_solution := best_solution st;
     best_cost := best_cost st;
     temperature := fmul (temperature st) cooling_rate;
     cost_history := cost_history st ++ [current_cost st] |}.

(** One iteration of the loop, lines 38 to 47. *)
Definition sa_step {L : Libm} (G : Graph) (n_colors : Z) (cooling_rate : float)
    (st : sa_state) : M sa_state :=
  new_solution <- neighbor (current_solution st) n_colors ;;
  new_cost <- lift (cost G new_solution) ;;
  ok <- accept (current_cost st) new_cost (temperature st) ;;
  ret (record_and_cool cooling_rate
         (if ok : bool then take new_solution new_cost st else st)).

(** Lines 30 to 35. *)
Definition sa_init (G : Graph) (n_colors : Z) (initial_temp : float)
  : M sa_state :=
  current_solution <- initial_solution G n_colors ;;
  current_cost <- lift (cost G current_solution) ;;
  ret {| current_solution := current_solution;
         current_cost := current_cost;
         best_solution := dict_copy current_solution;
         best_cost := current_cost;
         temperature := initial_temp;
         cost_history := [current_cost] |}.

(** Lines 30 to 47: the state the loop ends in. *)
Definition sa_run {L : Libm} (G : Graph) (n_colors : Z)
    (initial_temp cooling_rate : float) (n_iterations : Z) : M sa_state :=
  st0 <- sa_init G n_colors initial_temp ;;
  for_each (range 0 n_iterations) (fun _ => sa_step G n_colors cooling_rate) st0.

Definition simulated_annealing {L : Libm} (G : Graph) (n_colors : Z)
    (initial_temp cooling_rate : float) (n_iterations : Z)
  : M (Coloring * Z * list Z) :=
  st <- sa_run G n_colors initial_temp cooling_rate n_iterations ;;
  ret (best_solution st, best_cost st, cost_history st).

(** The [while True] loop of [find_optimal_coloring], entered with the
    current [n_colors].  [None]: the fuel ran out before an attempt
    succeeded or raised. *)
Fixpoint color_search {L : Libm} (fuel : nat) (G : Graph)
    (initial_temp cooling_rate : float)
    (n_iterations : Z) (n_colors : Z) (g : Random)
  : option (result (Coloring * Z * list Z * Random)) :=
  match fuel with
  | O => None
  | S fuel' =>
      match simulated_annealing G n_colors initial_temp cooling_rate n_iterations g with
      | Raise e => Some (Raise e)
      | Ok ((best_solution, best_cost, cost_history), g') =>
          if best_cost =? 0 then Some (Ok (best_solution, n_colors, cost_history, g'))
          else color_search fuel' G initial_temp cooling_rate n_iterations
                 (n_colors + 1) g'
      end
  end.

Definition find_optimal_coloring {L : Libm} (fuel : nat) (G : Graph)
    (initial_temp cooling_rate : float) (n_iterations : Z) (g : Random)
  : option (result (Coloring * Z * list Z * Random)) :=
  color_search fuel G initial_temp cooling_rate n_iterations 1 g.

(** ** Dict objects in a store

    [neighbor] copies its argument and then assigns into the copy.  Here the
    dicts are objects of a store, addressed by references, so that the
    assignment of line 26 is a mutation and the copy of line 24 a fresh
    object. *)
Module Store.

Definition ref : Type := nat.

Record store : Type := mkStore { cells : ref -> Coloring; next : ref }.

Definition deref (s : store) (r : ref) : Coloring := cells s r.

(** A new object holding [d]. *)
Definition alloc (s : store) (d : Coloring) : ref * store :=
  (next s,
   {| cells := fun r => if Nat.eqb r (next s) then d else cells s r;
      next := S (next s) |}).

(** [r[k] = v] on the object [r] refers to. *)
Definition setitem (s : store) (r : ref) (k v : Z) : store :=
  {| cells := fun r' => if Nat.eqb r' r then dict_set (cells s r) k v else cells s r';
     next := next s |}.

Definition neighbor_ref (coloring : ref) (n_colors : Z) (s : store)
  : M (ref * store) :=
  let (new_coloring, s1) := alloc s (deref s coloring) in
  node <- random_choice (dict_keys (deref s1 new_coloring)) ;;
  c <- random_randint 0 (n_colors - 1) ;;
  ret (new_coloring, setitem s1 new_coloring node c).

End Store.

(** ** Notions the properties are stated with *)

(** The invariants networkx keeps on an adjacency dictionary: the keys are
    distinct, so are the neighbours of a node, every neighbour is a node,
    and adjacency is symmetric. *)
Record wf_graph (G : Graph) : Prop := mkWf {
  wf_nodes : NoDup (nodes G);
  wf_nbrs : forall u, NoDup (neighbors G u);
  wf_closed : forall u v, In v (neighbors G u) -> In v (nodes G);
  wf_sym : forall u v, In v (neighbors G u) -> In u (neighbors G v)
}.

Arguments wf_nodes {G}.
Arguments wf_nbrs {G}.
Arguments wf_closed {G}.
Arguments wf_sym {G}.

(** What holds of every graph [generate_random_graph] returns, for the
    bound [n] on its nodes: the networkx invariants, adjacent nodes are
    distinct numbers below [n], and every node has a neighbour. *)
Definition generated (n : Z) (G : Graph) : Prop :=
  wf_graph G /\
  (forall u v, In v (neighbors G u) -> 0 <= u < n /\ 0 <= v < n /\ u <> v) /\
  (forall x, In x (nodes G) -> exists v, In v (neighbors G x)).

(** [coloring] gives a colour to every node of [G]. *)
Definition total (G : Graph) (coloring : Coloring) : Prop :=
  forall u, In u (nodes G) -> exists c, dict_get coloring u = Some c.

(** No two adjacent nodes have the same colour. *)
Definition proper (G : Graph) (coloring : Coloring) : Prop :=
  forall u v, In v (neighbors G u) -> dict_get coloring u <> dict_get coloring v.

Definition same_color (coloring : Coloring) (e : node * node) : bool :=
  match dict_get coloring (fst e), dict_get coloring (snd e) with
  | Some cu, Some cv => cu =? cv
  | _, _ => false
  end.

(** The number of edges whose endpoints have one colour. *)
Definition conflicts (G : Graph) (coloring : Coloring) : Z :=
  Z.of_nat (length (filter (same_color coloring) (edges G))).

(** The generator state before attempt [k + 1] of [find_optimal_coloring],
    when the attempts with 1, ..., [k] colours all returned a non-zero best
    cost. *)
Fixpoint before_attempt {L : Libm} (k : nat) (G : Graph)
    (initial_temp cooling_rate : float)
    (n_iterations : Z) (g : Random) : option Random :=
  match k with
  | O => Some g
  | S k' =>
      match before_attempt k' G initial_temp cooling_rate n_iterations g with
      | None => None
      | Some g1 =>
          match simulated_annealing G (Z.of_nat k) initial_temp cooling_rate
                  n_iterations g1 with
          | Ok ((_, best_cost, _), g2) => if best_cost =? 0 then None else Some g2
          | Raise _ => None
          end
      end
  end.

(** ** plot_results and run_algorithm, as far as they compute

    Of [plot_results] the two computations are kept: the list
    [node_colors] of line 65 and the number of colours of the title of
    line 67; layout and drawing are left out.  Of [run_algorithm] the [try]
    block is kept from line 131 on, with the five parsed numbers as
    arguments, and the [except ValueError] clause. *)

(** [l[i]] on a list: a negative index counts from the end, an index out of
    range raises [IndexError]. *)
Definition list_index {A : Type} (l : list A) (i : Z) : result A :=
  let j := if i <? 0 then i + Z.of_nat (length l) else i in
  if j <? 0 then Raise IndexError
  else match nth_error l (Z.to_nat j) with
       | Some a => Ok a
       | None => Raise IndexError
       end.

Definition colors : list String.string :=
  ["red"; "blue"; "green"; "yellow"; "purple"; "orange"; "pink"; "brown";
   "cyan"; "magenta"]%string.

(** [colors[c % len(colors)]] *)
Definition display_color (c : Z) : result String.string :=
  list_index colors (c mod Z.of_nat (length colors)).

Fixpoint node_colors_of (ns : list node) (coloring : Coloring)
  : result (list String.string) :=
  match ns with
  | [] => Ok []
  | node :: ns' =>
      match getitem coloring node with
      | Raise e => Raise e
      | Ok c =>
          match display_color c with
          | Raise e => Raise e
          | Ok name =>
              match node_colors_of ns' coloring with
              | Raise e => Raise e
              | Ok names => Ok (name :: names)
              end
          end
      end
  end.

(** Line 65. *)
Definition node_colors (G : Graph) (coloring : Coloring)
  : result (list String.string) :=
  node_colors_of (nodes G) coloring.

(** [len(set(coloring.values()))] of line 67. *)
Definition colors_used (coloring : Coloring) : Z :=
  Z.of_nat (length (nodup Z.eq_dec (map snd coloring))).

(** How the computations of the [try] block end: all return and the result
    goes to the widgets, one raises [ValueError] and the [except] clause
    writes its message, or one raises another exception, which leaves the
    method. *)
Inductive outcome : Type :=
| Shown (best_solution : Coloring) (n_colors : Z) (cost_history : list Z)
        (node_colors : list String.string) (used : Z)
| InputError
| Uncaught (e : exn).

Definition except_ValueError (e : exn) : outcome :=
  match e with
  | ValueError => InputError
  | _ => Uncaught e
  end.

(** Lines 131 to 153, after the five inputs were parsed.  [None]: the search
    did not end within the fuel. *)
Definition run_algorithm {L : Libm} (fuel : nat) (n_nodes : Z)
    (edge_probability : float)
    (initial_temp cooling_rate : float) (n_iterations : Z) (g : Random)
  : option outcome :=
  match generate_random_graph n_nodes edge_probability g with
  | Raise e => Some (except_ValueError e)
  | Ok (G, g1) =>
      match find_optimal_coloring fuel G initial_temp cooling_rate n_iterations g1 with
      | None => None
      | Some (Raise e) => Some (except_ValueError e)
      | Some (Ok (best_solution, n_colors, cost_history, _)) =>
          match node_colors G best_solution with
          | Raise e => Some (except_ValueError e)
          | Ok names =>
              Some (Shown best_solution n_colors cost_history names
                      (colors_used best_solution))
          end
      end
  end.

(** ** More notions *)

(** Every colour of [coloring] is one of [0 .. k - 1]. *)
Definition colors_below (k : Z) (coloring : Coloring) : Prop :=
  forall u c, dict_get coloring u = Some c -> 0 <= c < k.

(** The colours renamed by [f]. *)
Definition recolor (f : Z -> Z) (coloring : Coloring) : Coloring :=
  map (fun kv => (fst kv, f (snd kv))) coloring.

(** The number of reported edges that [x] is an endpoint of. *)
Definition incident (G : Graph) (x : node) : Z :=
  Z.of_nat (length (filter (fun e => (fst e =? x) || (snd e =? x)) (edges G))).

(** The pairs [generate_random_graph] draws for, in the order of its two
    loops. *)
Definition pairs (n : Z) : list (node * node) :=
  flat_map (fun i => map (pair i) (range (i + 1) n)) (range 0 n).

(** A generator whose every raw integer is 0: [randint(a, b)] returns [a]
    and [choice] the first element. *)
Definition lowest_draws (g : Random) : Prop :=
  forall i : nat, bits (tape g i) = 0%nat.

(** What the loop of [simulated_annealing] keeps of its best-so-far pair:
    [best_cost] is the cost of [best_solution], and it is the least entry of
    the history. *)
Definition tracks_minimum (G : Graph) (st : sa_state) : Prop :=
  cost G (best_solution st) = Ok (best_cost st) /\
  cost G (current_solution st) = Ok (current_cost st) /\
  best_cost st <= current_cost st /\
  In (best_cost st) (cost_history st) /\
  (forall c, In c (cost_history st) -> best_cost st <= c).

(** Both colourings of the loop colour the nodes of [G], in their order,
    with colours below [k]. *)
Definition colours_nodes (G : Graph) (k : Z) (st : sa_state) : Prop :=
  dict_keys (current_solution st) = nodes G /\
  colors_below k (current_solution st) /\
  dict_keys (best_solution st) = nodes G /\
  colors_below k (best_solution st).

(** The temperature after [i] iterations of a run: line 47, [i] times. *)
Fixpoint cooled (t rate : float) (i : nat) : float :=
  match i with
  | O => t
  | S i' => fmul (cooled t rate i') rate
  end.

(** Every difference of two costs of [G] that is not positive converts to a
    float: [float(z)] does not raise for it. *)
Definition costs_convert (G : Graph) : Prop :=
  forall z, - Z.of_nat (length (edges G)) <= z <= 0 ->
            exists d, float_of_int z = Ok d.

(** ** Inputs the properties are tried on *)

(** The doubles [0.5], [0.75], [2.0], [-1.0], and the entries [10] and
    [0.995] the form starts with. *)
Definition half : float := float_lit 1 2.

Definition three_quarters : float := float_lit 3 4.

Definition two : float := float_lit 2 1.

Definition minus_one : float := float_lit (-1) 1.

Definition ten : float := float_lit 10 1.

Definition slow_cooling : float := float_lit 995 1000.


(** A library for the runs below.  Its [exp] is a lower bound of the
    exponential with the values [exp] has at the zeros and the infinities:
    [0.25] on [-1, 0), [0.0] below [-1], [1.0] above [0]. *)
Definition coarse_exp (x : float) : float :=
  match x with
  | S754_zero _ => one
  | S754_nan => S754_nan
  | S754_infinity true => zero
  | S754_infinity false => x
  | S754_finite true _ _ => if SFleb minus_one x then float_lit 1 4 else zero
  | S754_finite false _ _ => one
  end.

Definition coarse_libm : Libm := {| libm_exp := coarse_exp |}.

(** A generator whose raw integers are those of [l], then 0, and whose
    floats are all [0.0]. *)
Definition tape_of (l : list nat) : Random :=
  {| tape := fun i => {| bits := nth i l 0%nat; uniform := zero |}; pos := 0 |}.

Definition zero_tape : Random := tape_of [].

(** The graph with the single edge 0 - 1, and the path 0 - 1 - 2. *)
Definition one_edge : Graph := add_edge empty_graph 0 1.

Definition path3 : Graph := add_edge one_edge 1 2.

(** Draws that make a run on [one_edge] with two colours start in conflict,
    reach cost 0 and leave it again. *)
Definition up_down_tape : Random := tape_of [0; 0; 1; 1; 1; 0]%nat.

(** The state of a run on [one_edge] whose two nodes share colour 0. *)
Definition conflict_state (t : float) : sa_state :=
  {| current_solution := [(0, 0); (1, 0)];
     current_cost := 1;
     best_solution := [(0, 0); (1, 0)];
     best_cost := 1;
     temperature := t;
     cost_history := [1] |}.

(** Draws for two attempts on [one_edge]: both nodes get colour 0 of one
    colour, then colours 0 and 1 of two. *)
Definition two_attempts_tape : Random := tape_of [0; 0; 0; 1]%nat.

(** A generator whose first float is [0.0] and whose other floats are
    [0.75]: with probability one half only the first pair becomes an edge. *)
Definition first_pair_tape : Random :=
  {| tape := fun i => {| bits := 0;
                         uniform := match i with
                                    | O => zero
                                    | S _ => three_quarters
                                    end |};
     pos := 0 |}.



(** A store with one dict object, at reference 0. *)
Definition one_object : Store.store :=
  {| Store.cells := fun _ => [(0, 0); (1, 0)]; Store.next := 1%nat |}.

(** * Properties *)

(** ** The monad *)

Lemma bind_ok {A B : Type} (m : M A) (f : A -> M B) g a g' :
  m g = Ok (a, g') -> bind m f g = f a g'.
Proof. unfold bind. now intros ->. Qed.

Lemma bind_raise {A B : Type} (m : M A) (f : A -> M B) g e :
  m g = Raise e -> bind m f g = Raise e.
Proof. unfold bind. now intros ->. Qed.

Lemma bind_inv {A B : Type} (m : M A) (f : A -> M B) g b g' :
  bind m f g = Ok (b, g') ->
  exists a g1, m g = Ok (a, g1) /\ f a g1 = Ok (b, g').
Proof.
  unfold bind. destruct (m g) as [[a g1]|e]; [|discriminate].
  intros H. now exists a, g1.
Qed.

Lemma lift_inv {A : Type} (r : result A) g a g' :
  lift r g = Ok (a, g') -> r = Ok a /\ g' = g.
Proof.
  unfold lift. destruct r; [|discriminate]. intros H. now inversion H.
Qed.

(** ** The random source *)

Lemma wf_random_advance g : wf_random g -> wf_random (advance g).
Proof. intros H i. apply (H i). Qed.

Lemma random_random_range g :
  wf_random g ->
  SFleb zero (uniform (peek g)) = true /\ SFltb (uniform (peek g)) one = true.
Proof. intros H. apply H. Qed.

Lemma random_randint_ok a b g :
  a <= b ->
  exists x, random_randint a b g = Ok (x, advance g) /\ a <= x <= b.
Proof.
  intros Hab. unfold random_randint.
  destruct (Z.ltb_spec b a) as [Hlt|_]; [lia|].
  eexists. split; [reflexivity|].
  pose proof (Z.mod_pos_bound (Z.of_nat (bits (peek g))) (b - a + 1)). lia.
Qed.

Lemma random_choice_ok (seq : list Z) g :
  seq <> [] ->
  exists x, random_choice seq g = Ok (x, advance g) /\ In x seq.
Proof.
  destruct seq as [|y seq']; [congruence|]. intros _.
  unfold random_choice. eexists. split; [reflexivity|].
  apply nth_In. apply Nat.mod_upper_bound. discriminate.
Qed.

Lemma random_randint_inv a b g x g' :
  random_randint a b g = Ok (x, g') -> a <= x <= b /\ g' = advance g.
Proof.
  unfold random_randint. destruct (Z.ltb_spec b a) as [Hlt|Hge]; [discriminate|].
  intros H. injection H as <- <-. split; [|reflexivity].
  pose proof (Z.mod_pos_bound (Z.of_nat (bits (peek g))) (b - a + 1)). lia.
Qed.

Lemma random_choice_inv (seq : list Z) g x g' :
  random_choice seq g = Ok (x, g') -> In x seq /\ g' = advance g.
Proof.
  intros H. assert (Hne : seq <> []) by (intros ->; discriminate).
  destruct (random_choice_ok seq g Hne) as (z & E & Hz).
  rewrite E in H. injection H as <- <-. now split.
Qed.

(** ** Loops *)

(** A loop whose body keeps [I] and never raises under [I] returns, in a
    state where [I] holds. *)
Lemma for_each_returns {A St : Type} (I : St -> Random -> Prop)
    (l : list A) (body : A -> St -> M St) :
  (forall x s g, In x l -> I s g ->
                 exists s' g', body x s g = Ok (s', g') /\ I s' g') ->
  forall s g, I s g ->
              exists s' g', for_each l body s g = Ok (s', g') /\ I s' g'.
Proof.
  induction l as [|x l IH]; intros Hbody s g HI.
  - exists s, g. now split.
  - destruct (Hbody x s g (or_introl eq_refl) HI) as (s1 & g1 & E1 & HI1).
    destruct (IH (fun y s g Hy => Hbody y s g (or_intror Hy)) s1 g1 HI1)
      as (s2 & g2 & E2 & HI2).
    exists s2, g2. split; [|exact HI2].
    cbn [for_each]. now rewrite (bind_ok _ _ _ _ _ E1).
Qed.

(** What a loop body keeps whenever it returns holds when the loop returns. *)
Lemma for_each_preserves {A St : Type} (I : St -> Random -> Prop)
    (l : list A) (body : A -> St -> M St) :
  (forall x s g s' g', In x l -> I s g -> body x s g = Ok (s', g') -> I s' g') ->
  forall s g s' g', I s g -> for_each l body s g = Ok (s', g') -> I s' g'.
Proof.
  induction l as [|x l IH]; intros Hbody s g s' g' HI E.
  - cbn in E. injection E as <- <-. exact HI.
  - cbn [for_each] in E. apply bind_inv in E. destruct E as (s1 & g1 & E1 & E2).
    apply (IH (fun y s g s' g' Hy => Hbody y s g s' g' (or_intror Hy)) s1 g1 s' g');
      [|exact E2].
    exact (Hbody x s g s1 g1 (or_introl eq_refl) HI E1).
Qed.

(** Two bodies that agree wherever [P] holds of the generator give the same
    loop. *)
Lemma for_each_ext {A St : Type} (P : Random -> Prop)
    (l : list A) (body1 body2 : A -> St -> M St) :
  (forall x s g, In x l -> P g -> body1 x s g = body2 x s g) ->
  (forall x s g s' g', In x l -> P g -> body1 x s g = Ok (s', g') -> P g') ->
  forall s g, P g -> for_each l body1 s g = for_each l body2 s g.
Proof.
  induction l as [|x l IH]; intros Heq Hkeep s g HP; [reflexivity|].
  cbn [for_each]. unfold bind.
  rewrite <- (Heq x s g (or_introl eq_refl) HP).
  destruct (body1 x s g) as [[s1 g1]|e] eqn:E; [|reflexivity].
  apply IH.
  - intros y s0 g0 Hy. apply Heq. now right.
  - intros y s0 g0 s' g' Hy. apply Hkeep. now right.
  - exact (Hkeep x s g s1 g1 (or_introl eq_refl) HP E).
Qed.

Lemma range_length a b : length (range a b) = Z.to_nat (b - a).
Proof. unfold range. now rewrite length_map, length_seq. Qed.

Lemma range_In a b x : In x (range a b) <-> a <= x < b.
Proof.
  unfold range. rewrite in_map_iff. split.
  - intros (k & <- & Hk). apply in_seq in Hk. lia.
  - intros H. exists (Z.to_nat (x - a)). split; [lia|]. apply in_seq. lia.
Qed.

Lemma range_empty a b : b <= a -> range a b = [].
Proof.
  intros H. unfold range. replace (Z.to_nat (b - a)) with O by lia. reflexivity.
Qed.

(** ** Dictionaries *)

Section Dict.
Context {V : Type}.
Implicit Types (d : dict V) (k : Z) (v : V).

Lemma dict_get_set_same d k v : dict_get (dict_set d k v) k = Some v.
Proof.
  induction d as [|[k' v'] d IH]; cbn.
  - now rewrite Z.eqb_refl.
  - destruct (Z.eqb_spec k' k) as [->|Hn]; cbn.
    + now rewrite Z.eqb_refl.
    + destruct (Z.eqb_spec k' k); [contradiction|exact IH].
Qed.

Lemma dict_get_set_other d k k' v :
  k' <> k -> dict_get (dict_set d k v) k' = dict_get d k'.
Proof.
  intros Hne. induction d as [|[k0 v0] d IH]; cbn.
  - destruct (Z.eqb_spec k k'); [congruence|reflexivity].
  - destruct (Z.eqb_spec k0 k) as [->|Hn]; cbn.
    + destruct (Z.eqb_spec k k'); [congruence|reflexivity].
    + now rewrite IH.
Qed.

Lemma dict_get_Some_In d k v : dict_get d k = Some v -> In (k, v) d.
Proof.
  induction d as [|[k0 v0] d IH]; cbn; [discriminate|].
  destruct (Z.eqb_spec k0 k) as [->|Hn]; intros H.
  - inversion H. now left.
  - right. now apply IH.
Qed.

Lemma dict_get_In_keys d k : In k (dict_keys d) <-> exists v, dict_get d k = Some v.
Proof.
  induction d as [|[k0 v0] d IH]; cbn.
  - split; [contradiction|]. now intros [v H].
  - destruct (Z.eqb_spec k0 k) as [->|Hn].
    + split; [now exists v0|now left].
    + rewrite <- IH. split; [intros [H|H]; [contradiction|exact H]|now right].
Qed.

Lemma dict_get_None d k : ~ In k (dict_keys d) -> dict_get d k = None.
Proof.
  intros H. destruct (dict_get d k) as [v|] eqn:E; [|reflexivity].
  exfalso. apply H. apply dict_get_In_keys. now exists v.
Qed.

Lemma dict_get_NoDup d k v :
  NoDup (dict_keys d) -> In (k, v) d -> dict_get d k = Some v.
Proof.
  induction d as [|[k0 v0] d IH]; cbn; [contradiction|].
  intros Hnd [H|H].
  - inversion H; subst. now rewrite Z.eqb_refl.
  - inversion Hnd as [|? ? Hnotin Hnd']; subst.
    destruct (Z.eqb_spec k0 k) as [->|Hn]; [|now apply IH].
    exfalso. apply Hnotin. unfold dict_keys.
    change k with (fst (k, v)). now apply in_map.
Qed.

Lemma dict_mem_In d k : dict_mem d k = true <-> In k (dict_keys d).
Proof.
  unfold dict_mem. rewrite existsb_exists. split.
  - intros (x & Hx & E). apply Z.eqb_eq in E. now subst.
  - intros H. exists k. split; [exact H|apply Z.eqb_refl].
Qed.

(** Assigning to a key that is present leaves the keys as they are. *)
Lemma dict_keys_set_present d k v :
  In k (dict_keys d) -> dict_keys (dict_set d k v) = dict_keys d.
Proof.
  induction d as [|[k0 v0] d IH]; cbn; [contradiction|].
  intros H. destruct (Z.eqb_spec k0 k) as [->|Hn]; cbn; [reflexivity|].
  f_equal. apply IH. destruct H; [contradiction|assumption].
Qed.

(** Assigning to a new key appends it. *)
Lemma dict_keys_set_absent d k v :
  ~ In k (dict_keys d) -> dict_keys (dict_set d k v) = dict_keys d ++ [k].
Proof.
  induction d as [|[k0 v0] d IH]; cbn; [reflexivity|].
  intros H. destruct (Z.eqb_spec k0 k) as [->|Hn]; cbn.
  - exfalso. apply H. now left.
  - f_equal. apply IH. intros Hin. apply H. now right.
Qed.

Lemma dict_keys_set_In d k v x :
  In x (dict_keys (dict_set d k v)) <-> In x (dict_keys d) \/ x = k.
Proof.
  destruct (in_dec Z.eq_dec k (dict_keys d)) as [Hin|Hout].
  - rewrite dict_keys_set_present by exact Hin.
    split; [now left|]. intros [H| ->]; assumption.
  - rewrite dict_keys_set_absent by exact Hout. rewrite in_app_iff. cbn.
    split; (intros [H|H]; [now left|right]); [destruct H as [H|[]]|left]; congruence.
Qed.

Lemma dict_keys_set_NoDup d k v :
  NoDup (dict_keys d) -> NoDup (dict_keys (dict_set d k v)).
Proof.
  intros Hnd. destruct (in_dec Z.eq_dec k (dict_keys d)) as [Hin|Hout].
  - now rewrite dict_keys_set_present.
  - rewrite dict_keys_set_absent by exact Hout.
    apply NoDup_app; [exact Hnd|repeat constructor; intros []|].
    intros x Hx [<-|[]]. contradiction.
Qed.

End Dict.

(** ** Graphs *)

Lemma existsb_eqb_In (x : Z) (l : list Z) : existsb (Z.eqb x) l = true <-> In x l.
Proof.
  rewrite existsb_exists. split.
  - intros (y & Hy & E). apply Z.eqb_eq in E. now subst.
  - intros H. exists x. split; [exact H|apply Z.eqb_refl].
Qed.

Lemma neighbors_set_same (G : Graph) u l : neighbors (dict_set G u l) u = l.
Proof. unfold neighbors. now rewrite dict_get_set_same. Qed.

Lemma neighbors_set_other (G : Graph) u l x :
  x <> u -> neighbors (dict_set G u l) x = neighbors G x.
Proof. intros H. unfold neighbors. now rewrite dict_get_set_other. Qed.

Lemma neighbors_not_node (G : Graph) u : ~ In u (nodes G) -> neighbors G u = [].
Proof. intros H. unfold neighbors. now rewrite dict_get_None. Qed.

Lemma nodes_add_node G u x : In x (nodes (add_node G u)) <-> In x (nodes G) \/ x = u.
Proof.
  unfold add_node. destruct (dict_mem G u) eqn:E.
  - apply dict_mem_In in E. split; [now left|]. now intros [H| ->].
  - apply dict_keys_set_In.
Qed.

Lemma NoDup_add_node G u : NoDup (nodes G) -> NoDup (nodes (add_node G u)).
Proof.
  unfold add_node. destruct (dict_mem G u); [easy|]. apply dict_keys_set_NoDup.
Qed.

Lemma neighbors_add_node G u x : neighbors (add_node G u) x = neighbors G x.
Proof.
  unfold add_node. destruct (dict_mem G u) eqn:E; [reflexivity|].
  destruct (Z.eq_dec x u) as [->|Hne].
  - rewrite neighbors_set_same. symmetry. apply neighbors_not_node.
    intros H. apply dict_mem_In in H. unfold nodes in *. congruence.
  - now apply neighbors_set_other.
Qed.

Lemma nodes_add_neighbor G u v x :
  In x (nodes (add_neighbor G u v)) <-> In x (nodes G) \/ x = u.
Proof. apply dict_keys_set_In. Qed.

Lemma NoDup_add_neighbor G u v : NoDup (nodes G) -> NoDup (nodes (add_neighbor G u v)).
Proof. apply dict_keys_set_NoDup. Qed.

Lemma neighbors_add_neighbor G u v x w :
  In w (neighbors (add_neighbor G u v) x) <->
  In w (neighbors G x) \/ (x = u /\ w = v).
Proof.
  unfold add_neighbor. destruct (Z.eq_dec x u) as [->|Hne].
  - rewrite neighbors_set_same.
    destruct (existsb (Z.eqb v) (neighbors G u)) eqn:E.
    + apply existsb_eqb_In in E. split; [now left|]. intros [H|[_ ->]]; assumption.
    + rewrite in_app_iff. cbn. split.
      * intros [H|[H|[]]]; [now left|right]. now split.
      * intros [H|[_ ->]]; [now left|right; now left].
  - rewrite neighbors_set_other by exact Hne. split; [now left|].
    intros [H|[H _]]; [exact H|contradiction].
Qed.

Lemma NoDup_neighbors_add_neighbor G u v x :
  NoDup (neighbors G x) -> NoDup (neighbors (add_neighbor G u v) x).
Proof.
  intros Hnd. unfold add_neighbor. destruct (Z.eq_dec x u) as [->|Hne].
  - rewrite neighbors_set_same.
    destruct (existsb (Z.eqb v) (neighbors G u)) eqn:E; [exact Hnd|].
    apply NoDup_app; [exact Hnd|repeat constructor; intros []|].
    intros y Hy [<-|[]]. apply existsb_eqb_In in Hy. congruence.
  - now rewrite neighbors_set_other.
Qed.

Lemma nodes_add_edge G a b x :
  In x (nodes (add_edge G a b)) <-> In x (nodes G) \/ x = a \/ x = b.
Proof.
  unfold add_edge. rewrite !nodes_add_neighbor, !nodes_add_node. tauto.
Qed.

Lemma neighbors_add_edge G a b x w :
  In w (neighbors (add_edge G a b) x) <->
  In w (neighbors G x) \/ (x = a /\ w = b) \/ (x = b /\ w = a).
Proof.
  unfold add_edge. rewrite !neighbors_add_neighbor, !neighbors_add_node. tauto.
Qed.

Lemma wf_empty_graph : wf_graph empty_graph.
Proof.
  split; cbn; try constructor; intros; contradiction.
Qed.

(** [add_edge] keeps the invariants of the adjacency dictionary. *)
Lemma wf_add_edge G a b : wf_graph G -> wf_graph (add_edge G a b).
Proof.
  intros [Hn Hb Hc Hs]. split.
  - unfold add_edge. now do 2 apply NoDup_add_neighbor; do 2 apply NoDup_add_node.
  - intros u. unfold add_edge. do 2 apply NoDup_neighbors_add_neighbor.
    rewrite !neighbors_add_node. apply Hb.
  - intros u v. rewrite neighbors_add_edge, nodes_add_edge.
    intros [H|[[-> ->]|[-> ->]]]; [left; eauto|tauto|tauto].
  - intros u v. rewrite !neighbors_add_edge.
    intros [H|[[-> ->]|[-> ->]]]; [left; eauto|tauto|tauto].
Qed.

(** Which pairs [G.edges()] reports: [(u, v)] for [v] a neighbour of [u]
    that is no node placed before [u]. *)
Lemma edges_from_In seen (adj : Graph) u v :
  In (u, v) (edges_from seen adj) <->
  exists pre nbrs post,
    adj = pre ++ (u, nbrs) :: post /\ In v nbrs /\
    ~ In v seen /\ ~ In v (dict_keys pre).
Proof.
  revert seen. induction adj as [|[n nbrs] adj IH]; intros seen; cbn [edges_from].
  - split; [contradiction|]. intros (pre & nb & post & E & _). now destruct pre.
  - rewrite in_app_iff, IH, in_map_iff. split.
    + intros [(w & E & Hw)|(pre & nb & post & E & Hv & Hs & Hp)].
      * inversion E; subst. apply filter_In in Hw. destruct Hw as [Hw Hf].
        exists [], nbrs, adj. repeat split; auto.
        apply negb_true_iff in Hf. intros Hin. apply existsb_eqb_In in Hin. congruence.
      * exists ((n, nbrs) :: pre), nb, post. subst adj. repeat split; auto.
        -- intros Hin. apply Hs. now right.
        -- cbn. intros [->|Hin]; [apply Hs; now left|contradiction].
    + intros (pre & nb & post & E & Hv & Hs & Hp). destruct pre as [|p pre].
      * inversion E; subst. left. exists v. split; [reflexivity|].
        apply filter_In. split; [exact Hv|]. apply negb_true_iff.
        destruct (existsb (Z.eqb v) seen) eqn:Ex; [|reflexivity].
        apply existsb_eqb_In in Ex. contradiction.
      * inversion E; subst. right. exists pre, nb, post. repeat split; auto.
        -- intros [->|Hin]; [apply Hp; now left|contradiction].
        -- intros Hin. apply Hp. now right.
Qed.

Lemma neighbors_entry (G : Graph) pre u nbrs post :
  NoDup (nodes G) -> G = pre ++ (u, nbrs) :: post -> neighbors G u = nbrs.
Proof.
  intros Hnd E. unfold neighbors.
  rewrite (dict_get_NoDup G u nbrs Hnd); [reflexivity|].
  subst G. apply in_elt.
Qed.

(** A reported edge joins adjacent nodes. *)
Lemma edges_adjacent G u v :
  wf_graph G -> In (u, v) (edges G) -> In v (neighbors G u).
Proof.
  intros Hwf H. apply edges_from_In in H.
  destruct H as (pre & nbrs & post & E & Hv & _).
  now rewrite (neighbors_entry G pre u nbrs post (wf_nodes Hwf) E).
Qed.

(** Every adjacent pair is reported, in one direction or the other. *)
Lemma adjacent_edges G u v :
  wf_graph G -> In v (neighbors G u) -> In (u, v) (edges G) \/ In (v, u) (edges G).
Proof.
  intros Hwf Hv.
  assert (Hu : In (u, neighbors G u) G).
  { unfold neighbors in *. destruct (dict_get G u) as [l|] eqn:E; [|contradiction].
    now apply dict_get_Some_In. }
  destruct (in_split _ _ Hu) as (pre & post & E).
  destruct (in_dec Z.eq_dec v (dict_keys pre)) as [Hin|Hout].
  - right. apply dict_get_In_keys in Hin. destruct Hin as [nv Hnv].
    apply dict_get_Some_In in Hnv. destruct (in_split _ _ Hnv) as (p1 & p2 & Ep).
    assert (EG : G = p1 ++ (v, nv) :: (p2 ++ (u, neighbors G u) :: post)).
    { rewrite E at 1. rewrite Ep. now rewrite <- app_assoc. }
    apply edges_from_In. exists p1, nv, (p2 ++ (u, neighbors G u) :: post).
    split; [exact EG|]. split; [|split; [intros []|]].
    + rewrite <- (neighbors_entry G p1 v nv _ (wf_nodes Hwf) EG). now apply (wf_sym Hwf).
    + intros Hin. pose proof (wf_nodes Hwf) as Hnd. unfold nodes, dict_keys in Hnd.
      rewrite EG in Hnd. rewrite map_app in Hnd. cbn in Hnd.
      rewrite map_app in Hnd. cbn in Hnd.
      change (map fst p1 ++ v :: map fst p2 ++ u :: map fst post)
        with (map fst p1 ++ (v :: map fst p2) ++ u :: map fst post) in Hnd.
      rewrite app_assoc in Hnd. apply NoDup_remove_2 in Hnd.
      apply Hnd. rewrite !in_app_iff. now do 2 left.
  - left. apply edges_from_In. exists pre, (neighbors G u), post.
    repeat split; auto.
Qed.

(** ** Cost *)

Lemma edges_endpoints G u v :
  wf_graph G -> In (u, v) (edges G) -> In u (nodes G) /\ In v (nodes G).
Proof.
  intros Hwf H. split.
  - apply edges_from_In in H. destruct H as (pre & nbrs & post & E & _).
    subst G. unfold nodes, dict_keys. rewrite map_app, in_app_iff. right. now left.
  - apply (wf_closed Hwf u). now apply edges_adjacent.
Qed.

Lemma cost_edges_count es coloring :
  (forall u v, In (u, v) es ->
               In u (dict_keys coloring) /\ In v (dict_keys coloring)) ->
  cost_edges es coloring = Ok (Z.of_nat (length (filter (same_color coloring) es))).
Proof.
  induction es as [|[u v] es IH]; intros Hcol; [reflexivity|].
  destruct (Hcol u v (or_introl eq_refl)) as [Hu Hv].
  apply dict_get_In_keys in Hu, Hv. destruct Hu as [cu Hu], Hv as [cv Hv].
  assert (Es : same_color coloring (u, v) = (cu =? cv)).
  { unfold same_color. cbn [fst snd]. now rewrite Hu, Hv. }
  cbn [cost_edges filter]. unfold getitem.
  rewrite Hu, Hv, Es, IH by (intros; apply Hcol; now right).
  f_equal. destruct (cu =? cv); cbn [length]; lia.
Qed.

Lemma cost_edges_returned es coloring n :
  cost_edges es coloring = Ok n ->
  n = Z.of_nat (length (filter (same_color coloring) es)).
Proof.
  revert n. induction es as [|[u v] es IH]; intros n; cbn [cost_edges filter].
  - intros H. now inversion H.
  - unfold getitem. unfold same_color at 1. cbn [fst snd].
    destruct (dict_get coloring u) as [cu|]; [|discriminate].
    destruct (dict_get coloring v) as [cv|]; [|discriminate].
    destruct (cost_edges es coloring) as [m|]; [|discriminate].
    intros H. inversion H. rewrite (IH m eq_refl).
    destruct (cu =? cv); cbn [length]; lia.
Qed.

Lemma total_keys G coloring u :
  total G coloring -> In u (nodes G) -> In u (dict_keys coloring).
Proof. intros Ht Hu. apply dict_get_In_keys. now apply Ht. Qed.

Lemma cost_total G coloring :
  wf_graph G -> total G coloring -> cost G coloring = Ok (conflicts G coloring).
Proof.
  intros Hwf Ht. unfold cost, conflicts. apply cost_edges_count.
  intros u v H. destruct (edges_endpoints G u v Hwf H).
  split; now apply (total_keys G).
Qed.

Lemma conflicts_zero_iff G coloring :
  conflicts G coloring = 0 <->
  forall e, In e (edges G) -> same_color coloring e = false.
Proof.
  unfold conflicts. split.
  - intros H e He. destruct (same_color coloring e) eqn:E; [|reflexivity].
    assert (Hin : In e (filter (same_color coloring) (edges G)))
      by (apply filter_In; now split).
    destruct (filter (same_color coloring) (edges G)); [contradiction|].
    cbn [length] in H. lia.
  - intros H. destruct (filter (same_color coloring) (edges G)) as [|e l] eqn:E;
      [reflexivity|].
    assert (Hin : In e (filter (same_color coloring) (edges G)))
      by (rewrite E; now left).
    apply filter_In in Hin. destruct Hin as [He Hs]. rewrite (H e He) in Hs.
    discriminate.
Qed.

(** C2.  For a graph and a colouring defined on all its nodes, [cost]
    returns the number of edges whose two endpoints have the same colour;
    that number is not negative, and it is zero exactly when no two adjacent
    nodes share a colour. *)
Theorem cost_counts_conflicts G coloring :
  wf_graph G -> total G coloring ->
  cost G coloring = Ok (conflicts G coloring) /\
  0 <= conflicts G coloring /\
  (conflicts G coloring = 0 <-> proper G coloring).
Proof.
  intros Hwf Ht. split; [now apply cost_total|]. split; [unfold conflicts; lia|].
  rewrite conflicts_zero_iff. split.
  - intros H u v Huv.
    assert (Hu : In u (nodes G)).
    { apply (wf_closed Hwf v). now apply (wf_sym Hwf). }
    pose proof (wf_closed Hwf u v Huv) as Hv.
    destruct (Ht u Hu) as [cu Eu], (Ht v Hv) as [cv Ev].
    rewrite Eu, Ev. intros Heq. inversion Heq; subst cv.
    destruct (adjacent_edges G u v Hwf Huv) as [He|He]; apply H in He;
      unfold same_color in He; cbn [fst snd] in He; rewrite Eu, Ev in He;
      rewrite Z.eqb_refl in He; discriminate.
  - intros Hp [u v] He. pose proof (Hp u v (edges_adjacent G u v Hwf He)) as Hne.
    unfold same_color. cbn [fst snd].
    destruct (dict_get coloring u) as [cu|]; [|reflexivity].
    destruct (dict_get coloring v) as [cv|]; [|reflexivity].
    apply Z.eqb_neq. congruence.
Qed.

(** ** Float operations *)

(** Comparisons of floats, decided by cases on the two numbers. *)
Ltac sf_order :=
  unfold SFltb, SFleb, SFeqb, SFcompare in *;
  repeat match goal with
         | x : spec_float |- _ => destruct x
         | x : float |- _ => destruct x
         end;
  repeat match goal with
         | b : bool |- _ => destruct b
         end;
  try discriminate; try reflexivity;
  repeat match goal with
         | H : context [Pos.compare_cont Eq ?a ?b] |- _ =>
             change (Pos.compare_cont Eq a b) with (Pos.compare a b) in H
         | |- context [Pos.compare_cont Eq ?a ?b] =>
             change (Pos.compare_cont Eq a b) with (Pos.compare a b)
         end;
  repeat match goal with
         | H : context [Z.compare ?a ?b] |- _ => destruct (Z.compare_spec a b)
         | |- context [Z.compare ?a ?b] => destruct (Z.compare_spec a b)
         end;
  repeat match goal with
         | H : context [Pos.compare ?a ?b] |- _ => destruct (Pos.compare_spec a b)
         | |- context [Pos.compare ?a ?b] => destruct (Pos.compare_spec a b)
         end;
  cbn in *; try discriminate; try reflexivity; try lia.

Lemma SFltb_le_trans a b c :
  SFltb a b = true -> SFleb b c = true -> SFltb a c = true.
Proof. intros H1 H2. sf_order. Qed.

Lemma SFle_lt_trans a b c :
  SFleb a b = true -> SFltb b c = true -> SFltb a c = true.
Proof. intros H1 H2. sf_order. Qed.

Lemma SFltb_trans a b c :
  SFltb a b = true -> SFltb b c = true -> SFltb a c = true.
Proof. intros H1 H2. sf_order. Qed.

Lemma SFleb_trans a b c :
  SFleb a b = true -> SFleb b c = true -> SFleb a c = true.
Proof. intros H1 H2. sf_order. Qed.

Lemma SFleb_not_lt a b : SFleb a b = true -> SFltb b a = false.
Proof. intros H. sf_order. Qed.

Lemma SFltb_not_le a b : SFltb a b = true -> SFleb b a = false.
Proof. intros H. sf_order. Qed.

Lemma SFltb_leb a b : SFltb a b = true -> SFleb a b = true.
Proof. intros H. sf_order. Qed.

Lemma SFltb_irrefl a : SFltb a a = false.
Proof. sf_order. Qed.

(** Two floats that are no NaN are comparable. *)
Lemma SFleb_total a b :
  is_nan a = false -> is_nan b = false -> SFleb a b = true \/ SFltb b a = true.
Proof.
  intros Ha Hb. destruct (SFleb a b) eqn:E; [now left|right].
  destruct a, b; try discriminate; sf_order.
Qed.

Lemma SFleb_not_nan a b : SFleb a b = true -> is_nan a = false /\ is_nan b = false.
Proof. intros H. destruct a, b; try discriminate; now split. Qed.

Lemma SFltb_not_nan a b : SFltb a b = true -> is_nan a = false /\ is_nan b = false.
Proof. intros H. destruct a, b; try discriminate; now split. Qed.

(** A float with the sign bit set is at most [0.0]; one without is at
    least [0.0]. *)
Lemma signed_true_nonpos x : signed true x -> SFleb x zero = true.
Proof. destruct x as [s|s| |s m e]; cbn; try tauto; now intros ->. Qed.


Lemma positive_signed t :
  SFltb zero t = true -> signed false t /\ (forall s, t <> S754_zero s).
Proof.
  destruct t as [s|s| |s m e]; try discriminate; destruct s; try discriminate;
    now repeat split.
Qed.


(** Rounding keeps the sign. *)
Lemma shr_1_nonneg mrs : 0 <= shr_m mrs -> 0 <= shr_m (shr_1 mrs).
Proof.
  destruct mrs as [m r s]. cbn. destruct m as [|p|p]; [cbn; lia| |lia].
  intros _. destruct p; cbn; lia.
Qed.

Lemma iter_pos_shr_1_nonneg p :
  forall mrs, 0 <= shr_m mrs -> 0 <= shr_m (iter_pos shr_1 p mrs).
Proof.
  induction p as [p IH|p IH|]; intros mrs H; cbn [iter_pos].
  - apply IH, IH. now apply shr_1_nonneg.
  - now apply IH, IH.
  - now apply shr_1_nonneg.
Qed.

Lemma shr_fexp_nonneg m e l :
  0 <= m -> 0 <= shr_m (fst (shr_fexp prec emax m e l)).
Proof.
  intros H. unfold shr_fexp, shr.
  assert (H0 : 0 <= shr_m (shr_record_of_loc m l)).
  { destruct l as [|[]]; cbn; exact H. }
  destruct (_ - e) as [|p|p]; cbn [fst]; [exact H0| |exact H0].
  now apply iter_pos_shr_1_nonneg.
Qed.

Lemma round_nearest_even_nonneg m l : 0 <= m -> 0 <= round_nearest_even m l.
Proof.
  intros H. unfold round_nearest_even. destruct l as [|[]]; try lia.
  destruct (Z.even m); lia.
Qed.

Lemma binary_round_aux_signed s m e l :
  0 <= m -> signed s (binary_round_aux prec emax s m e l).
Proof.
  intros H. unfold binary_round_aux.
  pose proof (shr_fexp_nonneg m e l H) as H1.
  destruct (shr_fexp prec emax m e l) as [mrs' e'] eqn:E1. cbn [fst] in H1.
  pose proof (shr_fexp_nonneg
                (round_nearest_even (shr_m mrs') (loc_of_shr_record mrs')) e'
                loc_Exact (round_nearest_even_nonneg _ _ H1)) as H2.
  destruct (shr_fexp prec emax (round_nearest_even _ _) e' loc_Exact)
    as [mrs'' e''].
  cbn [fst] in H2. destruct (shr_m mrs'') as [|p|p]; [reflexivity| |lia].
  destruct (e'' <=? emax - prec); reflexivity.
Qed.

Lemma binary_normalize_signed z :
  z <= 0 ->
  z = 0 /\ binary_normalize prec emax z 0 false = zero \/
  z < 0 /\ signed true (binary_normalize prec emax z 0 false).
Proof.
  intros H. destruct z as [|p|p]; [now left|lia|right]. split; [lia|].
  unfold binary_normalize, binary_round.
  destruct (shl_align _ _ _) as [mz ez]. apply binary_round_aux_signed. lia.
Qed.

Lemma SFdiv_signed sx sy x y :
  signed sx x -> signed sy y ->
  match x, y with
  | S754_zero _, S754_zero _ | S754_infinity _, S754_infinity _ => True
  | _, _ => signed (xorb sx sy) (SFdiv prec emax x y)
  end.
Proof.
  destruct x as [s1|s1| |s1 m1 e1], y as [s2|s2| |s2 m2 e2]; cbn [signed];
    try tauto; intros <- <-; cbn [SFdiv signed]; try reflexivity.
  unfold SFdiv_core_binary.
  destruct (Z.div_eucl _ (Z.pos m2)) as [q r] eqn:E.
  apply binary_round_aux_signed.
  match type of E with
  | Z.div_eucl ?a ?b = _ =>
      assert (Ha : 0 <= a);
      [|pose proof (Z.div_pos a b Ha ltac:(lia)) as Hq; unfold Z.div in Hq;
        rewrite E in Hq; exact Hq]
  end.
  destruct (_ - _ - _) as [|p|p]; [lia| |lia].
  apply Z.shiftl_nonneg. lia.
Qed.

(** [float(z)] returns a double that is no infinity, or raises
    [OverflowError]. *)
Lemma float_of_int_cases z :
  float_of_int z = Raise OverflowError \/
  exists d, float_of_int z = Ok d /\ is_infinite d = false /\
            d = binary_normalize prec emax z 0 false.
Proof.
  unfold float_of_int. destruct (binary_normalize prec emax z 0 false) eqn:E;
    [right|now left|right|right]; eexists; repeat split.
Qed.

Lemma float_of_int_zero : float_of_int 0 = Ok zero.
Proof. reflexivity. Qed.

(** The double of an [int] that is not positive is [0.0] or carries the
    sign. *)
Lemma float_of_int_nonpos z d :
  z <= 0 -> float_of_int z = Ok d ->
  is_infinite d = false /\ (z = 0 /\ d = zero \/ z < 0 /\ signed true d).
Proof.
  intros Hz E. destruct (float_of_int_cases z) as [E'|(d' & E' & Hfin & Hd)];
    [congruence|].
  rewrite E in E'. injection E' as <-. split; [exact Hfin|].
  rewrite Hd. apply binary_normalize_signed, Hz.
Qed.

Lemma float_div_nonzero x y :
  (forall s, y <> S754_zero s) -> float_div x y = Ok (SFdiv prec emax x y).
Proof.
  intros H. unfold float_div. destruct y; try reflexivity. now destruct (H s).
Qed.

Lemma float_div_zero x s : float_div x (S754_zero s) = Raise ZeroDivisionError.
Proof. reflexivity. Qed.


(** A difference that is not positive over a positive temperature is not
    positive; over a negative temperature it is not negative. *)
Lemma ratio_nonpos z d t :
  z <= 0 -> float_of_int z = Ok d -> SFltb zero t = true ->
  SFleb (SFdiv prec emax d t) zero = true.
Proof.
  intros Hz E Ht.
  destruct (float_of_int_nonpos z d Hz E) as [Hfin [[_ ->]|[_ Hs]]].
  - destruct t as [s|s| |s m e]; try discriminate; destruct s; try discriminate;
      reflexivity.
  - apply signed_true_nonpos.
    destruct (positive_signed t Ht) as (Hst & Hnz).
    pose proof (SFdiv_signed true false d t Hs Hst) as H.
    destruct d as [s1|s1| |s1 m1 e1], t as [s2|s2| |s2 m2 e2];
      try discriminate; try exact H; try (now destruct (Hnz s2)); contradiction.
Qed.


(** [0 / t] is [0.0] for a positive [t]. *)
Lemma ratio_zero t :
  SFltb zero t = true -> SFdiv prec emax zero t = zero.
Proof.
  destruct t as [s|s| |s m e]; try discriminate; destruct s; try discriminate;
    reflexivity.
Qed.

Lemma math_exp_cases {L : Libm} x :
  math_exp x = Ok (libm_exp x) \/
  math_exp x = Raise ValueError /\ is_nan (libm_exp x) = true /\ is_nan x = false \/
  math_exp x = Raise OverflowError /\ is_infinite (libm_exp x) = true /\
  is_finite x = true.
Proof.
  unfold math_exp. destruct (is_nan (libm_exp x)) eqn:E1, (is_nan x) eqn:E2;
    cbn [andb negb]; try (right; left; now repeat split);
    (destruct (is_infinite (libm_exp x)) eqn:E3, (is_finite x) eqn:E4;
     cbn [andb]; [right; right; now repeat split|now left..]).
Qed.

(** With the [exp] of a library that meets [libm_ok], [math.exp] raises
    nothing but [OverflowError]. *)
Lemma libm_ok_not_nan {L : Libm} x :
  libm_ok L -> is_nan x = false -> is_nan (libm_exp x) = false.
Proof.
  intros (_ & H2 & H3) Hx.
  destruct (SFleb_total x zero Hx eq_refl) as [H|H].
  - destruct (H2 x H) as [H0 _]. now apply SFleb_not_nan in H0.
  - apply SFltb_leb in H. apply H3 in H. now apply SFleb_not_nan in H.
Qed.

Lemma math_exp_ok {L : Libm} x :
  libm_ok L ->
  math_exp x = Ok (libm_exp x) \/
  math_exp x = Raise OverflowError /\ is_infinite (libm_exp x) = true /\
  is_finite x = true.
Proof.
  intros HL. destruct (math_exp_cases x) as [H|[(_ & H1 & H2)|H]];
    [now left| |now right].
  rewrite (libm_ok_not_nan x HL H2) in H1. discriminate.
Qed.

(** [math.exp] of a number that is not positive returns: a result in
    [0, 1]. *)
Lemma math_exp_nonpos {L : Libm} x :
  libm_ok L -> SFleb x zero = true ->
  math_exp x = Ok (libm_exp x) /\
  SFleb zero (libm_exp x) = true /\ SFleb (libm_exp x) one = true.
Proof.
  intros HL Hx. pose proof HL as (_ & H2 & _). destruct (H2 x Hx) as [H0 H1].
  split; [|now split].
  destruct (math_exp_ok x HL) as [H|(_ & Hinf & _)]; [exact H|].
  destruct (libm_exp x) as [s|s| |s m e]; try discriminate.
  destruct s; discriminate.
Qed.

Lemma coarse_libm_ok : libm_ok coarse_libm.
Proof.
  split; [|split].
  - reflexivity.
  - intros x Hx. destruct x as [s|s| |s m e]; try discriminate.
    + now split.
    + destruct s; [now split|discriminate].
    + destruct s; [|discriminate]. cbn [libm_exp coarse_libm coarse_exp].
      destruct (SFleb minus_one _); now split.
  - intros x Hx. destruct x as [s|s| |s m e]; try discriminate.
    + reflexivity.
    + destruct s; [discriminate|reflexivity].
    + destruct s; [discriminate|reflexivity].
Qed.

(** ** The acceptance test *)

(** A strictly better candidate is accepted without a draw. *)
Lemma accept_improving {L : Libm} cc nc t g :
  nc < cc -> accept cc nc t g = Ok (true, g).
Proof.
  intros H. unfold accept. apply Z.ltb_lt in H. now rewrite H.
Qed.

(** Otherwise one draw is made, the difference is converted, divided and
    passed to [math.exp], in this order. *)
Lemma accept_unfold {L : Libm} cc nc t g :
  cc <= nc ->
  accept cc nc t g =
  match float_of_int (cc - nc) with
  | Raise e => Raise e
  | Ok d =>
      match float_div d t with
      | Raise e => Raise e
      | Ok q =>
          match math_exp q with
          | Raise e => Raise e
          | Ok e => Ok (SFltb (uniform (peek g)) e, advance g)
          end
      end
  end.
Proof.
  intros H. unfold accept.
  destruct (Z.ltb_spec nc cc) as [Hlt|_]; [lia|].
  unfold bind, random_random, lift, ret.
  destruct (float_of_int (cc - nc)) as [d|e]; [|reflexivity].
  destruct (float_div d t) as [q|e]; [|reflexivity].
  now destruct (math_exp q).
Qed.

(** At a positive temperature the draw decides, against a float of
    [0, 1]. *)
Lemma accept_metropolis {L : Libm} cc nc t g d :
  libm_ok L -> cc <= nc -> SFltb zero t = true ->
  float_of_int (cc - nc) = Ok d ->
  accept cc nc t g =
  Ok (SFltb (uniform (peek g)) (libm_exp (SFdiv prec emax d t)), advance g).
Proof.
  intros HL H Ht Ed. rewrite accept_unfold by exact H. rewrite Ed.
  destruct (positive_signed t Ht) as (_ & Hnz).
  rewrite (float_div_nonzero d t Hnz).
  assert (Hq : SFleb (SFdiv prec emax d t) zero = true)
    by (apply (ratio_nonpos (cc - nc)); [lia|exact Ed|exact Ht]).
  destruct (math_exp_nonpos _ HL Hq) as [-> _]. reflexivity.
Qed.

(** A candidate of the same cost is accepted at every positive
    temperature. *)
Lemma accept_equal {L : Libm} c t g :
  libm_ok L -> wf_random g -> SFltb zero t = true ->
  accept c c t g = Ok (true, advance g).
Proof.
  intros HL Hg Ht.
  rewrite (accept_metropolis c c t g zero HL); [|lia|exact Ht|].
  - rewrite (ratio_zero t Ht). destruct HL as (H1 & _).
    change (libm_exp zero) with (libm_exp (S754_zero false)). rewrite (H1 false).
    destruct (random_random_range g Hg) as [_ ->]. reflexivity.
  - now rewrite Z.sub_diag.
Qed.




Lemma accept_returns {L : Libm} cc nc t g :
  libm_ok L -> SFltb zero t = true ->
  (cc <= nc -> exists d, float_of_int (cc - nc) = Ok d) ->
  exists b g', accept cc nc t g = Ok (b, g').
Proof.
  intros HL Ht Hd. destruct (Z.lt_ge_cases nc cc) as [H|H].
  - eexists _, _. now apply accept_improving.
  - destruct (Hd H) as [d Ed].
    eexists _, _. now apply (accept_metropolis cc nc t g d).
Qed.

(** ** The neighbourhood move *)

Lemma neighbor_returns coloring k g :
  dict_keys coloring <> [] -> 1 <= k ->
  exists node c,
    neighbor coloring k g = Ok (dict_set coloring node c, advance (advance g)) /\
    In node (dict_keys coloring) /\ 0 <= c < k.
Proof.
  intros Hne Hk. unfold neighbor, dict_copy.
  destruct (random_choice_ok (dict_keys coloring) g Hne) as (node & E1 & Hin).
  destruct (random_randint_ok 0 (k - 1) (advance g)) as (c & E2 & Hc); [lia|].
  exists node, c. split; [|split; [exact Hin|lia]].
  rewrite (bind_ok _ _ _ _ _ E1), (bind_ok _ _ _ _ _ E2). reflexivity.
Qed.

Lemma neighbor_inv coloring k g coloring' g' :
  neighbor coloring k g = Ok (coloring', g') ->
  exists node c,
    coloring' = dict_set coloring node c /\
    In node (dict_keys coloring) /\ 0 <= c < k.
Proof.
  unfold neighbor, dict_copy. intros H.
  apply bind_inv in H. destruct H as (node & g1 & E1 & H).
  apply bind_inv in H. destruct H as (c & g2 & E2 & H).
  injection H as <- <-. exists node, c. split; [reflexivity|]. split.
  - now apply random_choice_inv in E1.
  - apply random_randint_inv in E2. lia.
Qed.


Lemma neighbor_empty k g : neighbor [] k g = Raise IndexError.
Proof. reflexivity. Qed.

(** C3.  [neighbor], run on a dict object of a store: the call returns a
    fresh object and leaves every object that existed before, the argument
    among them, as it was.  The new colouring has the keys of the argument
    in the same order, agrees with it on every node but one, and gives that
    node a colour of [0, k).  It is the colouring the value-level [neighbor]
    computes from the same draws. *)
Theorem neighbor_single_move (s : Store.store) (coloring : Store.ref) k g :
  dict_keys (Store.deref s coloring) <> [] -> 1 <= k ->
  (coloring < Store.next s)%nat ->
  exists new_coloring s' g' node c,
    Store.neighbor_ref coloring k s g = Ok ((new_coloring, s'), g') /\
    neighbor (Store.deref s coloring) k g = Ok (Store.deref s' new_coloring, g') /\
    new_coloring <> coloring /\
    (forall r, (r < Store.next s)%nat -> Store.deref s' r = Store.deref s r) /\
    dict_keys (Store.deref s' new_coloring) = dict_keys (Store.deref s coloring) /\
    In node (dict_keys (Store.deref s coloring)) /\ 0 <= c < k /\
    dict_get (Store.deref s' new_coloring) node = Some c /\
    (forall m, m <> node ->
               dict_get (Store.deref s' new_coloring) m =
               dict_get (Store.deref s coloring) m).
Proof.
  intros Hne Hk Hlt.
  destruct (neighbor_returns (Store.deref s coloring) k g Hne Hk)
    as (node & c & E & Hin & Hc).
  pose proof E as E'. unfold neighbor, dict_copy in E'.
  apply bind_inv in E'. destruct E' as (node' & g1 & E1 & E').
  apply bind_inv in E'. destruct E' as (c' & g2 & E2 & E').
  inversion E' as [[Hd Hg]]. clear E'.
  exists (Store.next s), (Store.setitem (snd (Store.alloc s (Store.deref s coloring)))
                            (Store.next s) node' c'), g2, node, c.
  assert (Hnew : Store.deref
                   (Store.setitem (snd (Store.alloc s (Store.deref s coloring)))
                      (Store.next s) node' c') (Store.next s)
                 = dict_set (Store.deref s coloring) node c).
  { unfold Store.deref, Store.setitem, Store.alloc. cbn.
    rewrite Nat.eqb_refl. exact Hd. }
  split; [|split; [|split; [|split; [|split; [|split; [|split; [|split]]]]]]].
  - unfold Store.neighbor_ref, Store.alloc.
    replace (Store.deref _ (Store.next s)) with (Store.deref s coloring)
      by (unfold Store.deref; cbn; now rewrite Nat.eqb_refl).
    rewrite (bind_ok _ _ _ _ _ E1), (bind_ok _ _ _ _ _ E2). reflexivity.
  - rewrite Hnew, E. now rewrite Hg.
  - lia.
  - intros r Hr. unfold Store.deref, Store.setitem, Store.alloc. cbn.
    destruct (Nat.eqb_spec r (Store.next s)); [lia|reflexivity].
  - rewrite Hnew. now apply dict_keys_set_present.
  - exact Hin.
  - exact Hc.
  - rewrite Hnew. apply dict_get_set_same.
  - intros m Hm. rewrite Hnew. now apply dict_get_set_other.
Qed.

Lemma neighbor_single_move_witness :
  exists new_coloring s' g' node c,
    Store.neighbor_ref 0%nat 2 one_object zero_tape = Ok ((new_coloring, s'), g') /\
    neighbor (Store.deref one_object 0%nat) 2 zero_tape
    = Ok (Store.deref s' new_coloring, g') /\
    new_coloring <> 0%nat /\
    (forall r, (r < Store.next one_object)%nat ->
               Store.deref s' r = Store.deref one_object r) /\
    dict_keys (Store.deref s' new_coloring)
    = dict_keys (Store.deref one_object 0%nat) /\
    In node (dict_keys (Store.deref one_object 0%nat)) /\ 0 <= c < 2 /\
    dict_get (Store.deref s' new_coloring) node = Some c /\
    (forall m, m <> node ->
               dict_get (Store.deref s' new_coloring) m =
               dict_get (Store.deref one_object 0%nat) m).
Proof.
  apply (neighbor_single_move one_object 0%nat 2 zero_tape);
    [discriminate|lia|cbn; lia].
Defined.

(** ** The initial colouring *)

Lemma initial_solution_loop k (l : list node) :
  1 <= k ->
  forall (d : Coloring) g,
  exists d' g',
    for_each l
      (fun node d => c <- random_randint 0 (k - 1) ;; ret (dict_set d node c))
      d g = Ok (d', g') /\
    (forall u, In u (dict_keys d') <-> In u (dict_keys d) \/ In u l).
Proof.
  intros Hk. induction l as [|x l IH]; intros d g.
  - exists d, g. split; [reflexivity|]. cbn. tauto.
  - destruct (random_randint_ok 0 (k - 1) g) as (c & E & _); [lia|].
    destruct (IH (dict_set d x c) (advance g)) as (d' & g' & E' & Hkeys).
    exists d', g'. split.
    + cbn [for_each]. rewrite (bind_ok _ _ _ _ _ (bind_ok _ _ _ _ _ E)).
      exact E'.
    + intros u. rewrite Hkeys, dict_keys_set_In. cbn. intuition congruence.
Qed.

(** With at least one colour, [initial_solution] returns a colouring whose
    keys are the nodes of the graph. *)
Lemma initial_solution_returns G k g :
  1 <= k ->
  exists d g',
    initial_solution G k g = Ok (d, g') /\
    (forall u, In u (dict_keys d) <-> In u (nodes G)).
Proof.
  intros Hk. destruct (initial_solution_loop k (nodes G) Hk [] g)
    as (d & g' & E & Hkeys).
  exists d, g'. split; [exact E|]. intros u. rewrite Hkeys. cbn. tauto.
Qed.

Lemma keys_total G (d : Coloring) :
  (forall u, In u (nodes G) -> In u (dict_keys d)) -> total G d.
Proof. intros H u Hu. apply dict_get_In_keys. now apply H. Qed.

(** ** One iteration *)

Lemma sa_step_eq {L : Libm} G k rate st g cand g1 nc b g2 :
  neighbor (current_solution st) k g = Ok (cand, g1) ->
  cost G cand = Ok nc ->
  accept (current_cost st) nc (temperature st) g1 = Ok (b, g2) ->
  sa_step G k rate st g
  = Ok (record_and_cool rate (if b then take cand nc st else st), g2).
Proof.
  intros E1 E2 E3. unfold sa_step.
  rewrite (bind_ok _ _ _ _ _ E1). unfold bind at 1. unfold lift. rewrite E2.
  rewrite (bind_ok _ _ _ _ _ E3). reflexivity.
Qed.


Lemma sa_step_inv {L : Libm} G k rate st g st' g' :
  sa_step G k rate st g = Ok (st', g') ->
  exists cand g1 nc b,
    neighbor (current_solution st) k g = Ok (cand, g1) /\
    cost G cand = Ok nc /\
    accept (current_cost st) nc (temperature st) g1 = Ok (b, g') /\
    st' = record_and_cool rate (if b then take cand nc st else st).
Proof.
  unfold sa_step. intros H.
  apply bind_inv in H. destruct H as (cand & g1 & E1 & H).
  apply bind_inv in H. destruct H as (nc & g1' & E2 & H).
  apply lift_inv in E2. destruct E2 as [E2 ->].
  apply bind_inv in H. destruct H as (b & g2 & E3 & H).
  injection H as <- <-. now exists cand, g1, nc, b.
Qed.

Lemma take_current cand nc st :
  current_solution (take cand nc st) = cand /\ current_cost (take cand nc st) = nc.
Proof. unfold take. now destruct (nc <? best_cost st). Qed.

Lemma take_temperature cand nc st : temperature (take cand nc st) = temperature st.
Proof. unfold take. now destruct (nc <? best_cost st). Qed.

Lemma take_history cand nc st : cost_history (take cand nc st) = cost_history st.
Proof. unfold take. now destruct (nc <? best_cost st). Qed.

(** What accepting a candidate does to the best-so-far pair. *)
Lemma take_best cand nc st :
  (best_cost st <= nc /\
   best_solution (take cand nc st) = best_solution st /\
   best_cost (take cand nc st) = best_cost st) \/
  (nc < best_cost st /\
   best_solution (take cand nc st) = cand /\
   best_cost (take cand nc st) = nc).
Proof.
  unfold take. destruct (Z.ltb_spec nc (best_cost st)); [right|left]; now split.
Qed.

(** ** The whole run *)

Lemma for_each_app {A St : Type} (l1 l2 : list A) (body : A -> St -> M St) s g :
  for_each (l1 ++ l2) body s g
  = bind (for_each l1 body s) (for_each l2 body) g.
Proof.
  revert s g. induction l1 as [|x l1 IH]; intros s g; [reflexivity|].
  cbn [app for_each]. unfold bind.
  destruct (body x s g) as [[s1 g1]|e]; [|reflexivity].
  rewrite IH. reflexivity.
Qed.

Lemma range_snoc n : 0 <= n -> range 0 (n + 1) = range 0 n ++ [n].
Proof.
  intros H. unfold range.
  replace (Z.to_nat (n + 1 - 0)) with (S (Z.to_nat (n - 0))) by lia.
  rewrite seq_S, map_app. cbn. f_equal. f_equal. lia.
Qed.

(** A run of [n + 1] iterations is a run of [n] iterations and one more. *)
Lemma sa_run_succ {L : Libm} G k t rate n g :
  0 <= n ->
  sa_run G k t rate (n + 1) g
  = bind (sa_run G k t rate n) (sa_step G k rate) g.
Proof.
  intros Hn. unfold sa_run. rewrite (range_snoc n Hn).
  unfold bind. destruct (sa_init G k t g) as [[st0 g0]|e]; [|reflexivity].
  rewrite for_each_app. unfold bind.
  destruct (for_each (range 0 n) _ st0 g0) as [[st g1]|e]; [|reflexivity].
  cbn [for_each]. unfold bind, ret. now destruct (sa_step G k rate st g1) as [[? ?]|?].
Qed.

Lemma sa_init_inv G k t g st0 g0 :
  sa_init G k t g = Ok (st0, g0) ->
  exists d,
    initial_solution G k g = Ok (d, g0) /\ cost G d = Ok (current_cost st0) /\
    current_solution st0 = d /\ best_solution st0 = d /\
    best_cost st0 = current_cost st0 /\ temperature st0 = t /\
    cost_history st0 = [current_cost st0].
Proof.
  unfold sa_init. intros H.
  apply bind_inv in H. destruct H as (d & g1 & E1 & H).
  apply bind_inv in H. destruct H as (c0 & g2 & E2 & H).
  apply lift_inv in E2. destruct E2 as [E2 ->].
  injection H as <- <-. exists d. cbn. now repeat split.
Qed.

Lemma sa_init_returns G k t g :
  wf_graph G -> 1 <= k ->
  exists d g0,
    initial_solution G k g = Ok (d, g0) /\
    (forall u, In u (dict_keys d) <-> In u (nodes G)) /\
    sa_init G k t g
    = Ok ({| current_solution := d; current_cost := conflicts G d;
             best_solution := dict_copy d; best_cost := conflicts G d;
             temperature := t; cost_history := [conflicts G d] |}, g0).
Proof.
  intros Hwf Hk.
  destruct (initial_solution_returns G k g Hk) as (d & g0 & E0 & Hkeys).
  assert (Htot : total G d) by (apply keys_total; intros u; apply Hkeys).
  exists d, g0. split; [exact E0|]. split; [exact Hkeys|].
  unfold sa_init. rewrite (bind_ok _ _ _ _ _ E0). unfold bind, lift.
  now rewrite (cost_total G d Hwf Htot).
Qed.

Lemma conflicts_bounds G d : 0 <= conflicts G d <= Z.of_nat (length (edges G)).
Proof.
  unfold conflicts. split; [lia|].
  pose proof (filter_length_le (same_color d) (edges G)). lia.
Qed.


(** On a well-formed graph with a node and with a colour to choose, a run
    returns when the temperature is positive at the start of each of its
    iterations.  The product of line 47 is rounded and can reach [0.0]:
    that the temperature starts positive and the cooling rate is positive
    is not enough. *)
Lemma sa_run_returns {L : Libm} G k t rate (n : nat) g :
  libm_ok L -> wf_graph G -> nodes G <> [] -> 1 <= k -> costs_convert G ->
  (forall i, (i < n)%nat -> SFltb zero (cooled t rate i) = true) ->
  exists st g',
    sa_run G k t rate (Z.of_nat n) g = Ok (st, g') /\
    temperature st = cooled t rate n /\
    (forall u, In u (nodes G) -> In u (dict_keys (current_solution st))) /\
    current_cost st = conflicts G (current_solution st).
Proof.
  intros HL Hwf Hne Hk Hconv. induction n as [|n IH]; intros Hpos.
  - destruct (sa_init_returns G k t g Hwf Hk) as (d & g0 & _ & Hkeys & E).
    eexists _, g0. split.
    + unfold sa_run. rewrite (bind_ok _ _ _ _ _ E). reflexivity.
    + cbn. repeat split. intros u; apply Hkeys.
  - destruct IH as (st & g1 & E & Ht & Hk1 & Hc);
      [intros i Hi; apply Hpos; lia|].
    rewrite Nat2Z.inj_succ, <- Z.add_1_r, sa_run_succ by lia.
    rewrite (bind_ok _ _ _ _ _ E).
    assert (Hne1 : dict_keys (current_solution st) <> []).
    { destruct (nodes G) as [|u l] eqn:En; [congruence|].
      intros Hnil. specialize (Hk1 u (or_introl eq_refl)). rewrite Hnil in Hk1.
      contradiction. }
    destruct (neighbor_returns (current_solution st) k g1 Hne1 Hk)
      as (node & c & E1 & Hin & _).
    set (cand := dict_set (current_solution st) node c) in *.
    assert (Hk2 : dict_keys cand = dict_keys (current_solution st))
      by now apply dict_keys_set_present.
    assert (E2 : cost G cand = Ok (conflicts G cand)).
    { apply cost_total; [exact Hwf|]. apply keys_total. now rewrite Hk2. }
    destruct (accept_returns (current_cost st) (conflicts G cand)
                (temperature st) (advance (advance g1)) HL) as (b & g2 & E3).
    { rewrite Ht. apply Hpos. lia. }
    { intros Hle. apply Hconv.
      pose proof (conflicts_bounds G cand).
      pose proof (conflicts_bounds G (current_solution st)). lia. }
    eexists _, g2. split; [apply (sa_step_eq _ _ _ _ _ _ _ _ _ _ E1 E2 E3)|].
    cbn [record_and_cool current_solution current_cost temperature cooled].
    destruct b.
    + rewrite take_temperature, Ht.
      destruct (take_current cand (conflicts G cand) st) as [-> ->].
      repeat split. now rewrite Hk2.
    + rewrite Ht. now repeat split.
Qed.

Lemma last_snoc (l : list Z) (x d : Z) : last (l ++ [x]) d = x.
Proof. apply last_last. Qed.

Lemma sa_step_history {L : Libm} G k rate st g st' g' :
  sa_step G k rate st g = Ok (st', g') ->
  cost_history st' = cost_history st ++ [current_cost st'].
Proof.
  intros H. apply sa_step_inv in H.
  destruct H as (cand & g1 & nc & b & _ & _ & _ & ->).
  cbn [record_and_cool cost_history current_cost].
  destruct b; [now rewrite take_history|reflexivity].
Qed.

(** [current_cost] is the cost of [current_solution], before and after an
    iteration. *)
Lemma sa_step_current {L : Libm} G k rate st g st' g' :
  sa_step G k rate st g = Ok (st', g') ->
  cost G (current_solution st) = Ok (current_cost st) ->
  cost G (current_solution st') = Ok (current_cost st').
Proof.
  intros H Hc. apply sa_step_inv in H.
  destruct H as (cand & g1 & nc & b & _ & E2 & _ & ->).
  cbn [record_and_cool current_solution current_cost].
  destruct b; [|exact Hc].
  now destruct (take_current cand nc st) as [-> ->].
Qed.

Lemma sa_step_best_cost {L : Libm} G k rate st g st' g' :
  sa_step G k rate st g = Ok (st', g') -> best_cost st' <= best_cost st.
Proof.
  intros H. apply sa_step_inv in H.
  destruct H as (cand & g1 & nc & b & _ & _ & _ & ->).
  cbn [record_and_cool best_cost]. destruct b; [|lia].
  destruct (take_best cand nc st) as [(_ & _ & ->)|(Hlt & _ & ->)]; lia.
Qed.

Lemma sa_loop_history {L : Libm} G k rate (l : list Z) :
  forall st g st' g',
    for_each l (fun _ => sa_step G k rate) st g = Ok (st', g') ->
    cost G (current_solution st) = Ok (current_cost st) ->
    last (cost_history st) 0 = current_cost st ->
    length (cost_history st') = (length (cost_history st) + length l)%nat /\
    (exists rest, cost_history st' = cost_history st ++ rest) /\
    last (cost_history st') 0 = current_cost st' /\
    cost G (current_solution st') = Ok (current_cost st') /\
    best_cost st' <= best_cost st.
Proof.
  induction l as [|x l IH]; intros st g st' g' H Hc Hl.
  - cbn in H. injection H as <- <-. rewrite Nat.add_0_r.
    repeat split; auto; [|lia]. exists []. now rewrite app_nil_r.
  - cbn [for_each] in H. apply bind_inv in H. destruct H as (st1 & g1 & E1 & H).
    pose proof (sa_step_history _ _ _ _ _ _ _ E1) as Hh.
    pose proof (sa_step_current _ _ _ _ _ _ _ E1 Hc) as Hc1.
    pose proof (sa_step_best_cost _ _ _ _ _ _ _ E1) as Hb1.
    assert (Hl1 : last (cost_history st1) 0 = current_cost st1)
      by (rewrite Hh; apply last_snoc).
    destruct (IH st1 g1 st' g' H Hc1 Hl1) as (Hlen & (rest & Hrest) & Hlast & Hcost & Hb).
    repeat split; auto.
    + rewrite Hlen, Hh, length_app. cbn [length]. lia.
    + exists (current_cost st1 :: rest). rewrite Hrest, Hh, <- app_assoc. reflexivity.
    + lia.
Qed.

Lemma simulated_annealing_inv {L : Libm} G k t rate n g best bc hist g' :
  simulated_annealing G k t rate n g = Ok ((best, bc, hist), g') ->
  exists st,
    sa_run G k t rate n g = Ok (st, g') /\
    best = best_solution st /\ bc = best_cost st /\ hist = cost_history st.
Proof.
  unfold simulated_annealing. intros H.
  apply bind_inv in H. destruct H as (st & g1 & E & H).
  injection H as <- <- <- <-. now exists st.
Qed.

Lemma sa_run_inv {L : Libm} G k t rate n g st g' :
  sa_run G k t rate n g = Ok (st, g') ->
  exists st0 g0,
    sa_init G k t g = Ok (st0, g0) /\
    for_each (range 0 n) (fun _ => sa_step G k rate) st0 g0 = Ok (st, g').
Proof.
  unfold sa_run. intros H. apply bind_inv in H.
  destruct H as (st0 & g0 & E0 & H). now exists st0, g0.
Qed.

Lemma wf_one_edge : wf_graph one_edge.
Proof. apply wf_add_edge, wf_empty_graph. Qed.

Lemma wf_path3 : wf_graph path3.
Proof. apply wf_add_edge, wf_one_edge. Qed.

Lemma cost_counts_conflicts_witness :
  cost path3 [(0, 0); (1, 1); (2, 0)] = Ok (conflicts path3 [(0, 0); (1, 1); (2, 0)]) /\
  0 <= conflicts path3 [(0, 0); (1, 1); (2, 0)] /\
  (conflicts path3 [(0, 0); (1, 1); (2, 0)] = 0 <->
   proper path3 [(0, 0); (1, 1); (2, 0)]).
Proof.
  apply (cost_counts_conflicts path3 [(0, 0); (1, 1); (2, 0)]);
    [exact wf_path3|].
  intros u Hu. vm_compute in Hu.
  destruct Hu as [<-|[<-|[<-|[]]]]; eexists; reflexivity.
Defined.

Lemma costs_convert_one_edge : costs_convert one_edge.
Proof.
  intros z Hz. change (Z.of_nat (length (edges one_edge))) with 1 in Hz.
  assert (H : z = -1 \/ z = 0) by lia.
  destruct H as [->| ->]; eexists; reflexivity.
Qed.

Lemma wf_tape_of l : wf_random (tape_of l).
Proof. intros i. now split. Qed.

(** The run on [one_edge] with the draws of [up_down_tape], at temperature
    [1.0] and cooling rate [1.0]: the costs are 1, 0, 1, and the best cost
    is 0.  The second iteration takes a worse candidate because the draw
    [0.0] is below [exp(-1.0)]. *)
Lemma up_down_run {L : Libm} :
  libm_ok L -> SFltb zero (libm_exp minus_one) = true ->
  exists st g',
    sa_run one_edge 2 one one 2 up_down_tape = Ok (st, g') /\
    best_cost st = 0 /\ cost_history st = [1; 0; 1].
Proof.
  intros HL Hexp. eexists _, _. split.
  - unfold sa_run. erewrite bind_ok; [|reflexivity].
    change (range 0 2) with [0; 1]. cbn [for_each].
    erewrite bind_ok;
      [|eapply sa_step_eq;
        [reflexivity|reflexivity|apply accept_improving; cbn; lia]].
    erewrite bind_ok; [|eapply sa_step_eq; [reflexivity|reflexivity|]].
    2:{ cbn [take current_cost temperature record_and_cool Z.ltb Z.compare
               Pos.compare].
        rewrite (accept_metropolis _ _ _ _ minus_one HL);
          [|cbn; lia|reflexivity|reflexivity].
        match goal with
        | |- Ok (SFltb ?u (libm_exp ?q), _) = _ =>
            change q with minus_one; change u with zero
        end.
        rewrite Hexp. reflexivity. }
    reflexivity.
  - split; reflexivity.
Qed.

(** C4.  The history a run returns has [n_iterations + 1] entries; the first
    is the cost of the initial random colouring and the last is the cost of
    the current colouring when the loop ends.  On a well-formed graph with a
    node the run does return when the temperature, cooled by one rounded
    product per iteration, is positive at the start of every iteration.
    The last entry can differ from the returned best cost: it does in a run
    on the graph with one edge. *)
Theorem cost_history_shape {L : Libm} G k t rate n g :
  0 <= n ->
  (forall best bc hist g',
      simulated_annealing G k t rate n g = Ok ((best, bc, hist), g') ->
      exists d g0 c0 st,
        initial_solution G k g = Ok (d, g0) /\ cost G d = Ok c0 /\
        sa_run G k t rate n g = Ok (st, g') /\
        Z.of_nat (length hist) = n + 1 /\
        hd_error hist = Some c0 /\
        last hist 0 = current_cost st /\
        cost G (current_solution st) = Ok (current_cost st)) /\
  (libm_ok L -> wf_graph G -> nodes G <> [] -> 1 <= k -> costs_convert G ->
   (forall i, (i < Z.to_nat n)%nat -> SFltb zero (cooled t rate i) = true) ->
   exists res g', simulated_annealing G k t rate n g = Ok (res, g')) /\
  (libm_ok L -> SFltb zero (libm_exp minus_one) = true ->
   exists best bc hist g',
     simulated_annealing one_edge 2 one one 2 up_down_tape
     = Ok ((best, bc, hist), g') /\
     last hist 0 <> bc).
Proof.
  intros Hn. split; [|split].
  - intros best bc hist g' H.
    apply simulated_annealing_inv in H. destruct H as (st & E & _ & _ & ->).
    destruct (sa_run_inv _ _ _ _ _ _ _ _ E) as (st0 & g0 & E0 & Eloop).
    destruct (sa_init_inv _ _ _ _ _ _ E0)
      as (d & Ed & Ec & Hcur & _ & _ & _ & Hh0).
    assert (Hc0 : cost G (current_solution st0) = Ok (current_cost st0))
      by now rewrite Hcur.
    assert (Hl0 : last (cost_history st0) 0 = current_cost st0)
      by now rewrite Hh0.
    destruct (sa_loop_history _ _ _ _ _ _ _ _ Eloop Hc0 Hl0)
      as (Hlen & (rest & Hrest) & Hlast & Hcost & _).
    exists d, g0, (current_cost st0), st. repeat split; auto.
    + rewrite Hlen, Hh0, range_length. cbn [length]. lia.
    + rewrite Hrest, Hh0. reflexivity.
  - intros HL Hwf Hne Hk Hconv Hpos.
    destruct (sa_run_returns G k t rate (Z.to_nat n) g HL Hwf Hne Hk Hconv Hpos)
      as (st & g' & E & _).
    rewrite Z2Nat.id in E by exact Hn.
    exists (best_solution st, best_cost st, cost_history st), g'.
    unfold simulated_annealing. now rewrite (bind_ok _ _ _ _ _ E).
  - intros HL Hexp. destruct (up_down_run HL Hexp) as (st & g' & E & Hb & Hh).
    exists (best_solution st), (best_cost st), (cost_history st), g'. split.
    + unfold simulated_annealing. now rewrite (bind_ok _ _ _ _ _ E).
    + rewrite Hh, Hb. cbn. lia.
Qed.

Lemma cost_history_shape_witness :
  0 <= 2 /\
  exists best bc hist g',
    simulated_annealing (L := coarse_libm) one_edge 2 one one 2 up_down_tape
    = Ok ((best, bc, hist), g') /\
    Z.of_nat (length hist) = 2 + 1 /\ last hist 0 <> bc.
Proof.
  split; [lia|].
  destruct (cost_history_shape (L := coarse_libm) one_edge 2 one one 2
              up_down_tape) as (HA & _ & HC); [lia|].
  destruct (HC coarse_libm_ok eq_refl) as (best & bc & hist & g' & E & Hlast).
  exists best, bc, hist, g'. split; [exact E|]. split; [|exact Hlast].
  destruct (HA best bc hist g' E) as (d & g0 & c0 & st & _ & _ & _ & Hlen & _).
  exact Hlen.
Defined.

(** The best-so-far pair after an iteration: unchanged, or replaced by the
    new current colouring, whose cost is strictly lower. *)
Lemma sa_step_best {L : Libm} G k rate st g st' g' :
  sa_step G k rate st g = Ok (st', g') ->
  (best_solution st' = best_solution st /\ best_cost st' = best_cost st) \/
  (best_cost st' < best_cost st /\
   best_solution st' = current_solution st' /\
   best_cost st' = current_cost st').
Proof.
  intros H. apply sa_step_inv in H.
  destruct H as (cand & g1 & nc & b & _ & _ & _ & ->).
  cbn [record_and_cool best_cost best_solution current_solution current_cost].
  destruct b; [|now left].
  destruct (take_current cand nc st) as [-> ->].
  destruct (take_best cand nc st) as [(_ & -> & ->)|(Hlt & -> & ->)];
    [now left|right]. now repeat split.
Qed.

(** C5.  From one iteration to the next the best cost does not rise, and
    the best colouring is replaced only by a colouring of strictly lower cost
    than the best cost so far; the best cost a run returns is at most the
    cost of its initial colouring. *)
Theorem best_cost_monotone {L : Libm} G k t rate n g :
  0 <= n ->
  (forall st' g',
      sa_run G k t rate (n + 1) g = Ok (st', g') ->
      exists st g1,
        sa_run G k t rate n g = Ok (st, g1) /\
        sa_step G k rate st g1 = Ok (st', g') /\
        best_cost st' <= best_cost st /\
        ((best_solution st' = best_solution st /\ best_cost st' = best_cost st) \/
         (best_cost st' < best_cost st /\
          best_solution st' = current_solution st' /\
          best_cost st' = current_cost st'))) /\
  (forall best bc hist g',
      simulated_annealing G k t rate n g = Ok ((best, bc, hist), g') ->
      exists d g0 c0,
        initial_solution G k g = Ok (d, g0) /\ cost G d = Ok c0 /\ bc <= c0).
Proof.
  intros Hn. split.
  - intros st' g' H. rewrite (sa_run_succ G k t rate n g Hn) in H.
    apply bind_inv in H. destruct H as (st & g1 & E & Es).
    exists st, g1. split; [exact E|]. split; [exact Es|]. split.
    + exact (sa_step_best_cost _ _ _ _ _ _ _ Es).
    + exact (sa_step_best _ _ _ _ _ _ _ Es).
  - intros best bc hist g' H.
    apply simulated_annealing_inv in H. destruct H as (st & E & _ & -> & _).
    destruct (sa_run_inv _ _ _ _ _ _ _ _ E) as (st0 & g0 & E0 & Eloop).
    destruct (sa_init_inv _ _ _ _ _ _ E0)
      as (d & Ed & Ec & Hcur & _ & Hb0 & _ & Hh0).
    assert (Hc0 : cost G (current_solution st0) = Ok (current_cost st0))
      by now rewrite Hcur.
    assert (Hl0 : last (cost_history st0) 0 = current_cost st0)
      by now rewrite Hh0.
    destruct (sa_loop_history _ _ _ _ _ _ _ _ Eloop Hc0 Hl0)
      as (_ & _ & _ & _ & Hb).
    exists d, g0, (current_cost st0). repeat split; auto. lia.
Qed.

Lemma best_cost_monotone_witness :
  0 <= 1 /\
  exists st g1 st' g',
    sa_run (L := coarse_libm) one_edge 2 one one 1 up_down_tape = Ok (st, g1) /\
    sa_run (L := coarse_libm) one_edge 2 one one (1 + 1) up_down_tape
    = Ok (st', g') /\
    best_cost st' <= best_cost st.
Proof.
  split; [lia|].
  destruct (best_cost_monotone (L := coarse_libm) one_edge 2 one one 1
              up_down_tape) as (HA & _); [lia|].
  destruct (up_down_run (L := coarse_libm) coarse_libm_ok eq_refl)
    as (st' & g' & E' & _).
  destruct (HA st' g' E') as (st & g1 & E & _ & Hle & _).
  now exists st, g1, st', g'.
Defined.

Lemma neighbor_generator coloring k g coloring' g' :
  neighbor coloring k g = Ok (coloring', g') -> g' = advance (advance g).
Proof.
  unfold neighbor, dict_copy. intros H.
  apply bind_inv in H. destruct H as (node & g1 & E1 & H).
  apply bind_inv in H. destruct H as (c & g2 & E2 & H).
  injection H as _ <-.
  apply random_choice_inv in E1. apply random_randint_inv in E2.
  destruct E1 as [_ ->], E2 as [_ ->]. reflexivity.
Qed.

(** C6.  An iteration at a positive temperature does not raise in the
    acceptance test, and its candidate becomes the current colouring exactly
    when it costs strictly less or the draw made after the candidate was
    built is below [math.exp ((current_cost - candidate_cost) /
    temperature)], a comparison of doubles: the quotient is the rounded one
    and the exponential is the one the C library returns for it.  A
    candidate of equal cost is always taken: the quotient is then [0.0] and
    its exponential [1.0].  The cost difference is one that converts to
    a double, as every difference of two costs of a graph in memory does. *)
Theorem metropolis_acceptance {L : Libm} G k rate st g cand g1 nc d :
  libm_ok L -> SFltb zero (temperature st) = true -> wf_random g ->
  neighbor (current_solution st) k g = Ok (cand, g1) ->
  cost G cand = Ok nc ->
  (current_cost st <= nc -> float_of_int (current_cost st - nc) = Ok d) ->
  exists b st' g',
    accept (current_cost st) nc (temperature st) g1 = Ok (b, g') /\
    sa_step G k rate st g = Ok (st', g') /\
    (b = true <->
     nc < current_cost st \/
     SFltb (uniform (peek g1))
       (libm_exp (SFdiv prec emax d (temperature st))) = true) /\
    (b = true -> current_solution st' = cand /\ current_cost st' = nc) /\
    (b = false ->
     current_solution st' = current_solution st /\
     current_cost st' = current_cost st) /\
    (nc = current_cost st -> b = true).
Proof.
  intros HL Ht Hg E1 E2 Hd.
  assert (Hg1 : wf_random g1).
  { rewrite (neighbor_generator _ _ _ _ _ E1). now do 2 apply wf_random_advance. }
  assert (Hb : exists b g',
             accept (current_cost st) nc (temperature st) g1 = Ok (b, g') /\
             (b = true <->
              nc < current_cost st \/
              SFltb (uniform (peek g1))
                (libm_exp (SFdiv prec emax d (temperature st))) = true)).
  { destruct (Z.lt_ge_cases nc (current_cost st)) as [Hlt|Hge].
    - exists true, g1. split; [now apply accept_improving|]. split; auto.
    - eexists _, _.
      split; [exact (accept_metropolis _ _ _ _ d HL Hge Ht (Hd Hge))|].
      split; [now right|]. intros [Hlt|Hr]; [lia|exact Hr]. }
  destruct Hb as (b & g' & E3 & Hiff).
  exists b, (record_and_cool rate (if b then take cand nc st else st)), g'.
  split; [exact E3|]. split; [exact (sa_step_eq _ _ _ _ _ _ _ _ _ _ E1 E2 E3)|].
  split; [exact Hiff|].
  cbn [record_and_cool current_solution current_cost]. repeat split.
  - subst b. apply take_current.
  - subst b. apply take_current.
  - now subst b.
  - now subst b.
  - intros ->. rewrite (accept_equal _ _ _ HL Hg1 Ht) in E3. congruence.
Qed.

Lemma metropolis_acceptance_witness :
  exists b st' g',
    accept (L := coarse_libm) 1 1 one (advance (advance zero_tape))
    = Ok (b, g') /\
    sa_step (L := coarse_libm) one_edge 1 half (conflict_state one) zero_tape
    = Ok (st', g') /\
    b = true /\ current_solution st' = [(0, 0); (1, 0)].
Proof.
  destruct (metropolis_acceptance (L := coarse_libm) one_edge 1 half
              (conflict_state one) zero_tape
              [(0, 0); (1, 0)] (advance (advance zero_tape)) 1 zero)
    as (b & st' & g' & Ea & Es & _ & Ht & _ & Heq);
    [exact coarse_libm_ok|reflexivity|apply wf_tape_of|reflexivity|reflexivity
    |intros _; reflexivity|].
  exists b, st', g'. split; [exact Ea|]. split; [exact Es|].
  split; [now apply Heq|]. now apply Ht, Heq.
Defined.







(** ** A graph without nodes *)

Lemma nodes_nil G : nodes G = [] -> G = empty_graph.
Proof. destruct G; [reflexivity|discriminate]. Qed.

Lemma range_head n : 1 <= n -> exists l, range 0 n = 0 :: l.
Proof.
  intros H. unfold range.
  destruct (Z.to_nat (n - 0)) as [|m] eqn:E; [lia|].
  exists (map (fun k => 0 + Z.of_nat k) (seq 1 m)). reflexivity.
Qed.

(** C10.  On a graph without nodes the initial colouring is the empty dict
    and its cost is 0; with one iteration or more the first call of
    [neighbor] then chooses from an empty list, so [simulated_annealing]
    raises [IndexError], and [find_optimal_coloring] raises it in its first
    attempt. *)
Theorem no_nodes_run_raises {L : Libm} G k t rate n g :
  nodes G = [] -> 1 <= n ->
  initial_solution G k g = Ok ([], g) /\
  cost G [] = Ok 0 /\
  neighbor [] k g = Raise IndexError /\
  simulated_annealing G k t rate n g = Raise IndexError /\
  (forall fuel, find_optimal_coloring (S fuel) G t rate n g = Some (Raise IndexError)).
Proof.
  intros HG Hn. apply nodes_nil in HG. subst G.
  destruct (range_head n Hn) as (l & El).
  assert (Hsa : forall k', simulated_annealing empty_graph k' t rate n g
                           = Raise IndexError).
  { intros k'. unfold simulated_annealing. apply bind_raise.
    unfold sa_run. erewrite bind_ok; [|reflexivity].
    rewrite El. cbn [for_each]. apply bind_raise.
    unfold sa_step. now apply bind_raise. }
  repeat split; auto.
  intros fuel. unfold find_optimal_coloring. cbn [color_search]. now rewrite Hsa.
Qed.

Lemma no_nodes_run_raises_witness :
  simulated_annealing (L := coarse_libm) empty_graph 1 ten slow_cooling 1
    zero_tape
  = Raise IndexError.
Proof.
  apply (no_nodes_run_raises (L := coarse_libm) empty_graph 1 ten slow_cooling 1
           zero_tape);
    [reflexivity|lia].
Defined.

(** ** The search over colour counts *)

(** After [k] failed attempts the loop goes on with [k + 1] colours. *)
Lemma color_search_skip {L : Libm} G t rate n g (k : nat) :
  forall fuel g_k,
    before_attempt k G t rate n g = Some g_k ->
    color_search (k + fuel) G t rate n 1 g
    = color_search fuel G t rate n (Z.of_nat k + 1) g_k.
Proof.
  induction k as [|k IH]; intros fuel g_k H.
  - cbn in H. injection H as <-. reflexivity.
  - cbn [before_attempt] in H.
    destruct (before_attempt k G t rate n g) as [g1|] eqn:E1; [|discriminate].
    destruct (simulated_annealing G (Z.of_nat (S k)) t rate n g1)
      as [[[[best bc] hist] g2]|e] eqn:E2; [|discriminate].
    destruct (bc =? 0) eqn:Ebc; [discriminate|]. injection H as <-.
    replace (S k + fuel)%nat with (k + S fuel)%nat by lia.
    rewrite (IH (S fuel) g1 eq_refl). cbn [color_search].
    replace (Z.of_nat k + 1) with (Z.of_nat (S k)) by lia.
    now rewrite E2, Ebc.
Qed.

Lemma color_search_inv {L : Libm} G t rate n g best kc hist g' (fuel : nat) :
  forall (k : nat) g_k,
    before_attempt k G t rate n g = Some g_k ->
    color_search fuel G t rate n (Z.of_nat k + 1) g_k
    = Some (Ok (best, kc, hist, g')) ->
    exists (j : nat) g_j,
      kc = Z.of_nat j + 1 /\ (k <= j < k + fuel)%nat /\
      before_attempt j G t rate n g = Some g_j /\
      simulated_annealing G kc t rate n g_j = Ok ((best, 0, hist), g').
Proof.
  induction fuel as [|fuel IH]; intros k g_k Hb H; [discriminate|].
  cbn [color_search] in H.
  destruct (simulated_annealing G (Z.of_nat k + 1) t rate n g_k)
    as [[[[best1 bc] hist1] g2]|e] eqn:E2; [|discriminate].
  destruct (Z.eqb_spec bc 0) as [->|Hne].
  - injection H as <- <- <- <-. exists k, g_k. repeat split; auto; lia.
  - assert (Hb' : before_attempt (S k) G t rate n g = Some g2).
    { cbn [before_attempt]. rewrite Hb.
      replace (Z.of_nat (S k)) with (Z.of_nat k + 1) by lia. rewrite E2.
      destruct (Z.eqb_spec bc 0); [contradiction|reflexivity]. }
    replace (Z.of_nat k + 1 + 1) with (Z.of_nat (S k) + 1) in H by lia.
    destruct (IH (S k) g2 Hb' H) as (j & g_j & Hkc & Hj & Hbj & Hsa).
    exists j, g_j. repeat split; auto; lia.
Qed.

(** C1.  [find_optimal_coloring] runs the annealing with 1, 2, 3, ...
    colours, each attempt on the generator state the one before left.  When
    the attempts with 1, ..., [k] colours returned a non-zero best cost and
    the attempt with [k + 1] colours returns best cost 0, the search (given
    fuel for [k + 1] attempts) returns that attempt's colouring, [k + 1] and
    that attempt's history.  Conversely whatever the search returns is the
    colouring and the history of the first attempt with best cost 0. *)
Theorem find_optimal_coloring_first_success {L : Libm} G t rate n g :
  (forall (k fuel : nat) g_k best hist g',
      before_attempt k G t rate n g = Some g_k ->
      simulated_annealing G (Z.of_nat k + 1) t rate n g_k
      = Ok ((best, 0, hist), g') ->
      (k < fuel)%nat ->
      find_optimal_coloring fuel G t rate n g
      = Some (Ok (best, Z.of_nat k + 1, hist, g'))) /\
  (forall (fuel : nat) best kc hist g',
      find_optimal_coloring fuel G t rate n g = Some (Ok (best, kc, hist, g')) ->
      exists (k : nat) g_k,
        kc = Z.of_nat k + 1 /\ (k < fuel)%nat /\
        before_attempt k G t rate n g = Some g_k /\
        simulated_annealing G kc t rate n g_k = Ok ((best, 0, hist), g')).
Proof.
  split.
  - intros k fuel g_k best hist g' Hb Hsa Hlt. unfold find_optimal_coloring.
    replace fuel with (k + S (fuel - S k))%nat by lia.
    rewrite (color_search_skip G t rate n g k _ g_k Hb).
    cbn [color_search]. now rewrite Hsa.
  - intros fuel best kc hist g' H. unfold find_optimal_coloring in H.
    destruct (color_search_inv G t rate n g best kc hist g' fuel 0%nat g eq_refl H)
      as (j & g_j & Hkc & Hj & Hbj & Hsa).
    exists j, g_j. repeat split; auto; lia.
Qed.

Lemma find_optimal_coloring_first_success_witness :
  exists g',
    find_optimal_coloring (L := coarse_libm) 2 one_edge ten slow_cooling 0
      two_attempts_tape
    = Some (Ok ([(0, 0); (1, 1)], 2, [0], g')).
Proof.
  eexists.
  eapply (proj1 (find_optimal_coloring_first_success (L := coarse_libm) one_edge
                   ten slow_cooling 0 two_attempts_tape) 1%nat 2%nat);
    [reflexivity|reflexivity|lia].
Defined.

(** ** Random graphs *)

(** The body of the inner loop of [generate_random_graph]. *)
Lemma pair_step_eq p i j (G : Graph) g :
  (r <- random_random ;;
   if SFltb r p then ret (add_edge G i j) else ret G) g
  = Ok (if SFltb (uniform (peek g)) p then add_edge G i j else G, advance g).
Proof.
  unfold bind, random_random, ret. now destruct (SFltb (uniform (peek g)) p).
Qed.

Lemma pair_step_drawn p i j (G : Graph) g :
  SFltb (uniform (peek g)) p = true ->
  (r <- random_random ;;
   if SFltb r p then ret (add_edge G i j) else ret G) g
  = Ok (add_edge G i j, advance g).
Proof.
  intros H. rewrite pair_step_eq. now rewrite H.
Qed.

Lemma pair_step_skipped p i j (G : Graph) g :
  SFltb (uniform (peek g)) p = false ->
  (r <- random_random ;;
   if SFltb r p then ret (add_edge G i j) else ret G) g
  = Ok (G, advance g).
Proof.
  intros H. rewrite pair_step_eq. now rewrite H.
Qed.

(** [generate_random_graph] never raises. *)
Lemma generate_random_graph_returns n p g :
  exists G g', generate_random_graph n p g = Ok (G, g').
Proof.
  unfold generate_random_graph.
  destruct (for_each_returns (fun (_ : Graph) (_ : Random) => True) (range 0 n)
              (fun i G =>
                 for_each (range (i + 1) n)
                   (fun j G =>
                      r <- random_random ;;
                      if SFltb r p then ret (add_edge G i j) else ret G) G))
    with (s := empty_graph) (g := g) as (G & g' & E & _); [|exact I|now exists G, g'].
  intros i G0 g0 _ _.
  apply (for_each_returns (fun (_ : Graph) (_ : Random) => True)); [|exact I].
  intros j G1 g1 _ _. rewrite pair_step_eq. eexists _, _. now split.
Qed.

Lemma generate_random_graph_no_pairs n p g :
  n <= 1 -> generate_random_graph n p g = Ok (empty_graph, g).
Proof.
  intros H. unfold generate_random_graph.
  destruct (Z.le_gt_cases n 0) as [H0|H0].
  - now rewrite range_empty.
  - replace n with 1 by lia. reflexivity.
Qed.

(** The loops of [generate_random_graph] for two probabilities that every
    draw of [0, 1) compares alike with. *)
Lemma generate_random_graph_ext n p q g :
  wf_random g ->
  (forall r, SFleb zero r = true /\ SFltb r one = true ->
             SFltb r p = SFltb r q) ->
  generate_random_graph n p g = generate_random_graph n q g.
Proof.
  intros Hg Hpq. unfold generate_random_graph.
  assert (Hkeep : forall i (l : list Z) G0 g0 G1 g1,
             wf_random g0 ->
             for_each l
               (fun j G =>
                  r <- random_random ;;
                  if SFltb r p then ret (add_edge G i j) else ret G) G0 g0
             = Ok (G1, g1) ->
             wf_random g1).
  { intros i l G0 g0 G1 g1 H0 E.
    refine (for_each_preserves (fun (_ : Graph) g => wf_random g) l _ _
              G0 g0 G1 g1 H0 E).
    intros j G2 g2 G3 g3 _ H2 E2. rewrite pair_step_eq in E2.
    injection E2 as _ <-. now apply wf_random_advance. }
  apply (for_each_ext wf_random); [| |exact Hg].
  - intros i G0 g0 _ H0. apply (for_each_ext wf_random); [| |exact H0].
    + intros j G1 g1 _ H1. rewrite !pair_step_eq.
      now rewrite (Hpq _ (random_random_range g1 H1)).
    + intros j G1 g1 G2 g2 _ H1 E. rewrite pair_step_eq in E.
      injection E as _ <-. now apply wf_random_advance.
  - intros i G0 g0 G1 g1 _ H0 E. exact (Hkeep i _ G0 g0 G1 g1 H0 E).
Qed.

(** With a probability that is not positive no edge is added, so the graph
    has no node either. *)
Lemma generate_random_graph_no_edge n p g :
  wf_random g -> SFleb p zero = true ->
  exists g', generate_random_graph n p g = Ok (empty_graph, g').
Proof.
  intros Hg Hp. unfold generate_random_graph.
  set (I := fun (G : Graph) (g : Random) => G = empty_graph /\ wf_random g).
  destruct (for_each_returns I (range 0 n)
              (fun i G =>
                 for_each (range (i + 1) n)
                   (fun j G =>
                      r <- random_random ;;
                      if SFltb r p then ret (add_edge G i j) else ret G) G))
    with (s := empty_graph) (g := g) as (G & g' & E & [-> _]).
  - intros i G0 g0 _ H0. apply (for_each_returns I); [|exact H0].
    intros j G1 g1 _ [-> H1]. rewrite pair_step_eq. eexists _, _.
    split; [reflexivity|]. split; [|now apply wf_random_advance].
    destruct (random_random_range g1 H1) as [Hr _].
    now rewrite (SFleb_not_lt _ _ (SFleb_trans _ _ _ Hp Hr)).
  - now split.
  - now exists g'.
Qed.

(** C7, as the code has it.  Neither entry point checks a numeric input.
    [generate_random_graph] never fails: a negative [n_nodes] gives the
    empty graph without a draw, an [edge_probability] below 0 acts as 0 and
    one above 1 as 1.  [find_optimal_coloring] with a negative
    [n_iterations] acts as with 0 iterations, and with 0 iterations its
    result does not depend on [initial_temp] and [cooling_rate]. *)
Theorem inputs_not_validated {L : Libm} :
  (forall n p g, exists G g', generate_random_graph n p g = Ok (G, g')) /\
  (forall n p g, n < 0 -> generate_random_graph n p g = Ok (empty_graph, g)) /\
  (forall n p g, wf_random g -> SFltb p zero = true ->
                 generate_random_graph n p g = generate_random_graph n zero g) /\
  (forall n p g, wf_random g -> SFltb one p = true ->
                 generate_random_graph n p g = generate_random_graph n one g) /\
  (forall fuel G t rate n g,
      n < 0 ->
      find_optimal_coloring fuel G t rate n g
      = find_optimal_coloring fuel G t rate 0 g) /\
  (forall fuel G t t' rate rate' g,
      find_optimal_coloring fuel G t rate 0 g
      = find_optimal_coloring fuel G t' rate' 0 g).
Proof.
  split; [exact generate_random_graph_returns|].
  split; [intros n p g H; apply generate_random_graph_no_pairs; lia|].
  split; [|split; [|split]].
  - intros n p g Hg Hp. apply generate_random_graph_ext; [exact Hg|].
    intros r [H0 _]. rewrite (SFleb_not_lt _ _ H0).
    apply SFleb_not_lt, SFltb_leb. exact (SFltb_le_trans _ _ _ Hp H0).
  - intros n p g Hg Hp. apply generate_random_graph_ext; [exact Hg|].
    intros r [_ H1]. rewrite H1. exact (SFltb_trans _ _ _ H1 Hp).
  - intros fuel G t rate n g Hn. unfold find_optimal_coloring.
    generalize 1 as k. revert g.
    induction fuel as [|fuel IH]; intros g k; [reflexivity|].
    cbn [color_search].
    assert (E : simulated_annealing G k t rate n g
                = simulated_annealing G k t rate 0 g).
    { unfold simulated_annealing, sa_run. now rewrite (range_empty 0 n) by lia. }
    rewrite E. destruct (simulated_annealing G k t rate 0 g)
      as [[[[best bc] hist] g1]|e]; [|reflexivity].
    destruct (bc =? 0); [reflexivity|apply IH].
  - intros fuel G t t' rate rate' g. unfold find_optimal_coloring.
    generalize 1 as k. revert g.
    induction fuel as [|fuel IH]; intros g k; [reflexivity|].
    cbn [color_search].
    assert (E : simulated_annealing G k t rate 0 g
                = simulated_annealing G k t' rate' 0 g).
    { unfold simulated_annealing, sa_run, sa_init, bind, lift, ret.
      destruct (initial_solution G k g) as [[d g0]|e]; [|reflexivity].
      destruct (cost G d); reflexivity. }
    rewrite E. destruct (simulated_annealing G k t' rate' 0 g)
      as [[[[best bc] hist] g1]|e]; [|reflexivity].
    destruct (bc =? 0); [reflexivity|apply IH].
Qed.

(** No input of these is refused: a negative node count with probability 2,
    and a search with negative temperature, cooling rate and iteration
    count, both return. *)
Lemma invalid_inputs_accepted :
  generate_random_graph (-1) two zero_tape = Ok (empty_graph, zero_tape) /\
  find_optimal_coloring (L := coarse_libm) 1 empty_graph minus_one minus_one
    (-1) zero_tape
  = Some (Ok ([], 1, [0], zero_tape)).
Proof. split; reflexivity. Qed.

Lemma generated_empty n : generated n empty_graph.
Proof.
  split; [exact wf_empty_graph|]. split; intros; contradiction.
Qed.

Lemma generated_add_edge n G i j :
  0 <= i < n -> 0 <= j < n -> i <> j ->
  generated n G -> generated n (add_edge G i j).
Proof.
  intros Hi Hj Hij (Hwf & Hadj & Hnode). split; [now apply wf_add_edge|]. split.
  - intros u v H. apply neighbors_add_edge in H.
    destruct H as [H|[[-> ->]|[-> ->]]]; [now apply Hadj| |]; repeat split; lia.
  - intros x H. apply nodes_add_edge in H. destruct H as [H|[->| ->]].
    + destruct (Hnode x H) as [v Hv]. exists v. apply neighbors_add_edge. now left.
    + exists j. apply neighbors_add_edge. right. left. now split.
    + exists i. apply neighbors_add_edge. right. right. now split.
Qed.

Lemma generate_random_graph_generated n p g G g' :
  generate_random_graph n p g = Ok (G, g') -> generated n G.
Proof.
  unfold generate_random_graph. intros E.
  refine (for_each_preserves (fun G (_ : Random) => generated n G) _ _ _
            empty_graph g G g' (generated_empty n) E).
  intros i G0 g0 G1 g1 Hi H0 E1. apply range_In in Hi.
  refine (for_each_preserves (fun G (_ : Random) => generated n G) _ _ _
            G0 g0 G1 g1 H0 E1).
  intros j G2 g2 G3 g3 Hj H2 E2. apply range_In in Hj.
  rewrite pair_step_eq in E2. injection E2 as <- _.
  destruct (SFltb (uniform (peek g2)) p); [|exact H2].
  apply generated_add_edge; [lia|lia|lia|exact H2].
Qed.

Lemma NoDup_map_pair (n : node) (l : list node) :
  NoDup l -> NoDup (map (pair n) l).
Proof.
  induction 1 as [|x l Hx Hnd IH]; cbn; constructor; [|exact IH].
  rewrite in_map_iff. intros (y & E & Hy). injection E as ->. contradiction.
Qed.

Lemma edges_from_NoDup seen (adj : Graph) :
  NoDup (dict_keys adj) ->
  (forall n nbrs, In (n, nbrs) adj -> NoDup nbrs) ->
  NoDup (edges_from seen adj).
Proof.
  revert seen. induction adj as [|[n nbrs] adj IH]; intros seen Hk Hn;
    cbn [edges_from]; [constructor|].
  cbn in Hk. inversion Hk as [|? ? Hnotin Hk']; subst.
  apply NoDup_app.
  - apply NoDup_map_pair, NoDup_filter. apply (Hn n). now left.
  - apply IH; [exact Hk'|]. intros m l H. apply (Hn m). now right.
  - intros [u v] H1 H2. apply in_map_iff in H1. destruct H1 as (w & E & _).
    injection E as <- _. apply edges_from_In in H2.
    destruct H2 as (pre & nb & post & E & _). apply Hnotin. rewrite E.
    unfold dict_keys. rewrite map_app, in_app_iff. right. now left.
Qed.

(** No edge is reported twice. *)
Lemma edges_NoDup G : wf_graph G -> NoDup (edges G).
Proof.
  intros Hwf. apply edges_from_NoDup; [exact (wf_nodes Hwf)|].
  intros n nbrs H. destruct (in_split _ _ H) as (pre & post & E).
  rewrite <- (neighbors_entry G pre n nbrs post (wf_nodes Hwf) E).
  apply (wf_nbrs Hwf).
Qed.

Lemma split_order (l1 l2 l1' l2' : list Z) a b :
  NoDup (l1 ++ a :: l2) -> l1 ++ a :: l2 = l1' ++ b :: l2' -> In b l2 -> In a l1'.
Proof.
  revert l1'. induction l1 as [|x l1 IH]; intros l1' Hnd E Hb.
  - destruct l1' as [|y l1']; cbn in E; injection E as <- E.
    + inversion Hnd; subst. contradiction.
    + now left.
  - destruct l1' as [|y l1']; cbn in E; injection E as <- E.
    + inversion Hnd as [|? ? Hx _]; subst. exfalso. apply Hx.
      rewrite in_app_iff. right. now right.
    + right. inversion Hnd; subst. now apply IH.
Qed.

(** An edge is not reported in both directions. *)
Lemma edges_one_direction G u v :
  wf_graph G -> In (u, v) (edges G) -> In (v, u) (edges G) -> u = v.
Proof.
  intros Hwf H1 H2. apply edges_from_In in H1, H2.
  destruct H1 as (pre & nu & post & E1 & _ & _ & Hv).
  destruct H2 as (pre' & nv & post' & E2 & _ & _ & Hu).
  destruct (Z.eq_dec u v) as [|Hne]; [assumption|exfalso].
  pose proof (wf_nodes Hwf) as Hnd. unfold nodes, dict_keys in Hnd.
  assert (K1 : map fst G = dict_keys pre ++ u :: dict_keys post)
    by (rewrite E1; unfold dict_keys; now rewrite map_app).
  assert (K2 : map fst G = dict_keys pre' ++ v :: dict_keys post')
    by (rewrite E2; unfold dict_keys; now rewrite map_app).
  assert (Hin : In v (dict_keys pre ++ u :: dict_keys post)).
  { rewrite <- K1, K2. rewrite in_app_iff. right. now left. }
  rewrite in_app_iff in Hin. destruct Hin as [Hin|[Hin|Hin]];
    [contradiction|contradiction|].
  rewrite K1 in Hnd. rewrite K1 in K2.
  apply Hu. exact (split_order _ _ _ _ u v Hnd K2 Hin).
Qed.

(** C8, as the code has it.  The graph [generate_random_graph] returns is
    built by [add_edge] alone: its nodes lie in [0, n_nodes), but a number
    is a node only when an edge was drawn for it, so the node set is not
    [0 .. n_nodes - 1] in general.  No edge is a self-loop, none is reported
    twice, and none in both directions.  With probability 0 and three nodes
    asked for the graph has no node at all; when only the pair 0 - 1 is
    drawn, node 2 is missing. *)
Theorem generate_random_graph_node_set :
  (forall n p g G g',
      generate_random_graph n p g = Ok (G, g') ->
      (forall x, In x (nodes G) <-> exists v, In v (neighbors G x)) /\
      (forall x, In x (nodes G) -> 0 <= x < n) /\
      (forall u v, In (u, v) (edges G) -> u <> v /\ ~ In (v, u) (edges G)) /\
      NoDup (edges G)) /\
  (exists g', generate_random_graph 3 zero zero_tape = Ok (empty_graph, g')) /\
  (exists g', generate_random_graph 3 half first_pair_tape = Ok (one_edge, g')) /\
  nodes empty_graph = [] /\ nodes one_edge = [0; 1].
Proof.
  split; [|split; [|split; [|split; reflexivity]]].
  - intros n p g G g' E. apply generate_random_graph_generated in E.
    destruct E as (Hwf & Hadj & Hnode). split; [|split; [|split]].
    + intros x. split; [apply Hnode|]. intros [v Hv].
      apply (wf_closed Hwf v). now apply (wf_sym Hwf).
    + intros x Hx. destruct (Hnode x Hx) as [v Hv]. now apply (Hadj x v).
    + intros u v He.
      assert (Hne : u <> v) by (apply (Hadj u v); now apply edges_adjacent).
      split; [exact Hne|]. intros He'. apply Hne.
      now apply (edges_one_direction G).
    + now apply edges_NoDup.
  - apply generate_random_graph_no_edge; [apply wf_tape_of|reflexivity].
  - eexists. unfold generate_random_graph.
    change (range 0 3) with [0; 1; 2]. cbn [for_each].
    change (range (0 + 1) 3) with [1; 2]. change (range (1 + 1) 3) with [2].
    change (range (2 + 1) 3) with (@nil Z). cbn [for_each].
    erewrite bind_ok;
      [|erewrite bind_ok; [|apply pair_step_drawn; reflexivity];
        erewrite bind_ok; [|apply pair_step_skipped; reflexivity]; reflexivity].
    erewrite bind_ok;
      [|erewrite bind_ok; [|apply pair_step_skipped; reflexivity]; reflexivity].
    reflexivity.
Qed.

(** * Further properties of the code *)

(** ** initial_solution *)

Lemma colors_below_set k (d : Coloring) x c :
  colors_below k d -> 0 <= c < k -> colors_below k (dict_set d x c).
Proof.
  intros H Hc u c' E. destruct (Z.eq_dec u x) as [->|Hne].
  - rewrite dict_get_set_same in E. injection E as <-. exact Hc.
  - rewrite dict_get_set_other in E by exact Hne. now apply (H u).
Qed.

Lemma initial_solution_loop_spec k (l : list node) :
  1 <= k ->
  forall (d : Coloring) g,
    NoDup l -> (forall x, In x l -> ~ In x (dict_keys d)) -> colors_below k d ->
    exists d' g',
      for_each l
        (fun node d => c <- random_randint 0 (k - 1) ;; ret (dict_set d node c))
        d g = Ok (d', g') /\
      dict_keys d' = dict_keys d ++ l /\ colors_below k d' /\
      tape g' = tape g /\ pos g' = (pos g + length l)%nat.
Proof.
  intros Hk. induction l as [|x l IH]; intros d g Hnd Hnew Hcol.
  - exists d, g. cbn [length for_each]. rewrite app_nil_r, Nat.add_0_r.
    split; [reflexivity|]. split; [reflexivity|]. split; [exact Hcol|].
    split; reflexivity.
  - destruct (random_randint_ok 0 (k - 1) g) as (c & E & Hc); [lia|].
    inversion Hnd as [|? ? Hx Hnd']; subst.
    destruct (IH (dict_set d x c) (advance g)) as (d' & g' & E' & Hk' & Hc' & Ht & Hp).
    + exact Hnd'.
    + intros y Hy Hin. apply dict_keys_set_In in Hin. destruct Hin as [Hin| ->].
      * apply (Hnew y); [now right|exact Hin].
      * contradiction.
    + apply colors_below_set; [exact Hcol|lia].
    + exists d', g'. split; [|split; [|split; [exact Hc'|split]]].
      * cbn [for_each]. rewrite (bind_ok _ _ _ _ _ (bind_ok _ _ _ _ _ E)).
        exact E'.
      * rewrite Hk', dict_keys_set_absent, <- app_assoc; [reflexivity|].
        apply Hnew. now left.
      * exact Ht.
      * rewrite Hp. cbn. lia.
Qed.

(** X1.  With at least one colour and distinct nodes, [initial_solution]
    returns a colouring whose keys are the nodes of the graph in their
    order, whose colours all lie in [0, n_colors), and it makes one draw per
    node. *)
Theorem initial_solution_spec G k g :
  NoDup (nodes G) -> 1 <= k ->
  exists d g',
    initial_solution G k g = Ok (d, g') /\
    dict_keys d = nodes G /\ colors_below k d /\
    tape g' = tape g /\ pos g' = (pos g + length (nodes G))%nat.
Proof.
  intros Hnd Hk.
  destruct (initial_solution_loop_spec k (nodes G) Hk [] g Hnd)
    as (d & g' & E & Hkeys & Hcol & Ht & Hp).
  - intros x _ [].
  - intros u c H. discriminate.
  - exists d, g'. split; [exact E|]. split; [exact Hkeys|].
    split; [exact Hcol|]. now split.
Qed.

Lemma initial_solution_spec_witness :
  exists d g',
    initial_solution path3 3 zero_tape = Ok (d, g') /\
    dict_keys d = nodes path3 /\ colors_below 3 d /\
    tape g' = tape zero_tape /\ pos g' = (pos zero_tape + length (nodes path3))%nat.
Proof.
  apply (initial_solution_spec path3 3 zero_tape);
    [exact (wf_nodes wf_path3)|lia].
Defined.

(** X2.  Without a colour to draw from, [initial_solution] raises
    [ValueError] at the first node. *)
Theorem initial_solution_no_colors G k g :
  nodes G <> [] -> k <= 0 -> initial_solution G k g = Raise ValueError.
Proof.
  intros Hne Hk. unfold initial_solution.
  destruct (nodes G) as [|x l]; [congruence|].
  cbn [for_each]. apply bind_raise. apply bind_raise.
  unfold random_randint. destruct (Z.ltb_spec (k - 1) 0); [reflexivity|lia].
Qed.

Lemma initial_solution_no_colors_witness :
  initial_solution one_edge 0 zero_tape = Raise ValueError.
Proof.
  apply (initial_solution_no_colors one_edge 0 zero_tape); [discriminate|lia].
Defined.

(** ** neighbor *)

(** X3.  When [neighbor] raises: [IndexError] on a colouring without keys,
    whatever the number of colours, and [ValueError] on a colouring with
    keys when the number of colours is not positive; in no other case. *)
Theorem neighbor_raises coloring k g :
  (dict_keys coloring = [] -> neighbor coloring k g = Raise IndexError) /\
  (dict_keys coloring <> [] -> k <= 0 ->
   neighbor coloring k g = Raise ValueError) /\
  (forall e, neighbor coloring k g = Raise e ->
             (e = IndexError /\ dict_keys coloring = []) \/
             (e = ValueError /\ dict_keys coloring <> [] /\ k <= 0)).
Proof.
  assert (H1 : dict_keys coloring = [] -> neighbor coloring k g = Raise IndexError).
  { intros H. unfold neighbor, dict_copy. apply bind_raise.
    unfold random_choice. now rewrite H. }
  assert (H2 : dict_keys coloring <> [] -> k <= 0 ->
               neighbor coloring k g = Raise ValueError).
  { intros Hne Hk. unfold neighbor, dict_copy.
    destruct (random_choice_ok (dict_keys coloring) g Hne) as (x & E & _).
    rewrite (bind_ok _ _ _ _ _ E). apply bind_raise.
    unfold random_randint. destruct (Z.ltb_spec (k - 1) 0); [reflexivity|lia]. }
  split; [exact H1|]. split; [exact H2|].
  intros e E. destruct (dict_keys coloring) as [|x l] eqn:Ek.
  - left. rewrite H1 in E by reflexivity. injection E as <-. now split.
  - right. assert (Hne : x :: l <> []) by discriminate.
    destruct (Z.le_gt_cases k 0) as [Hk|Hk].
    + rewrite (H2 Hne Hk) in E. injection E as <-. now repeat split.
    + exfalso. rewrite <- Ek in Hne.
      destruct (neighbor_returns coloring k g Hne) as (node & c & E' & _); [lia|].
      rewrite E' in E. discriminate.
Qed.

(** ** cost *)

Lemma cost_edges_outcome es coloring :
  match cost_edges es coloring with
  | Ok n =>
      n = Z.of_nat (length (filter (same_color coloring) es)) /\
      forall u v, In (u, v) es ->
                  In u (dict_keys coloring) /\ In v (dict_keys coloring)
  | Raise e =>
      e = KeyError /\
      exists u v, In (u, v) es /\
                  (~ In u (dict_keys coloring) \/ ~ In v (dict_keys coloring))
  end.
Proof.
  induction es as [|[u v] es IH]; cbn [cost_edges].
  - split; [reflexivity|]. intros u v [].
  - unfold getitem.
    destruct (dict_get coloring u) as [cu|] eqn:Eu.
    2:{ split; [reflexivity|]. exists u, v. split; [now left|]. left.
        intros H. apply dict_get_In_keys in H. destruct H as [c H]. congruence. }
    destruct (dict_get coloring v) as [cv|] eqn:Ev.
    2:{ split; [reflexivity|]. exists u, v. split; [now left|]. right.
        intros H. apply dict_get_In_keys in H. destruct H as [c H]. congruence. }
    destruct (cost_edges es coloring) as [n|e].
    + destruct IH as [-> Hin]. split.
      * cbn [filter]. unfold same_color at 2. cbn [fst snd]. rewrite Eu, Ev.
        destruct (cu =? cv); cbn [length]; lia.
      * intros a b [H|H]; [|now apply Hin]. injection H as <- <-.
        split; apply dict_get_In_keys; eauto.
    + destruct IH as [-> (a & b & Hab & Hmiss)]. split; [reflexivity|].
      exists a, b. split; [now right|exact Hmiss].
Qed.

(** X4.  [cost] returns exactly when the colouring has a colour for both
    endpoints of every edge, and then returns the number of conflicts; the
    only exception it raises is [KeyError], for an edge with an endpoint the
    colouring lacks. *)
Theorem cost_outcome G coloring :
  (forall n, cost G coloring = Ok n ->
             n = conflicts G coloring /\
             forall u v, In (u, v) (edges G) ->
                         In u (dict_keys coloring) /\ In v (dict_keys coloring)) /\
  (forall e, cost G coloring = Raise e ->
             e = KeyError /\
             exists u v, In (u, v) (edges G) /\
                         (~ In u (dict_keys coloring) \/
                          ~ In v (dict_keys coloring))).
Proof.
  unfold cost, conflicts. pose proof (cost_edges_outcome (edges G) coloring) as H.
  split.
  - intros n E. rewrite E in H. exact H.
  - intros e E. rewrite E in H. exact H.
Qed.

Lemma filter_all {A : Type} (f : A -> bool) (l : list A) :
  (forall x, In x l -> f x = true) -> filter f l = l.
Proof.
  induction l as [|x l IH]; intros H; [reflexivity|]. cbn [filter].
  rewrite (H x (or_introl eq_refl)). f_equal. apply IH. intros y Hy. apply H.
  now right.
Qed.

(** X5.  The cost is at most the number of edges, and it is the number of
    edges when all nodes have one colour: a single colour never colours a
    graph with an edge. *)
Theorem cost_at_most_edges G coloring :
  wf_graph G -> total G coloring ->
  exists n,
    cost G coloring = Ok n /\ 0 <= n <= Z.of_nat (length (edges G)) /\
    (forall c, (forall u, In u (nodes G) -> dict_get coloring u = Some c) ->
               n = Z.of_nat (length (edges G))).
Proof.
  intros Hwf Ht. exists (conflicts G coloring).
  split; [now apply cost_total|]. unfold conflicts. split.
  - pose proof (filter_length_le (same_color coloring) (edges G)). lia.
  - intros c Hc. rewrite filter_all; [reflexivity|].
    intros [u v] He. destruct (edges_endpoints G u v Hwf He) as [Hu Hv].
    unfold same_color. cbn [fst snd]. rewrite (Hc u Hu), (Hc v Hv).
    apply Z.eqb_refl.
Qed.

Lemma cost_at_most_edges_witness :
  exists n,
    cost path3 [(0, 0); (1, 0); (2, 0)] = Ok n /\
    0 <= n <= Z.of_nat (length (edges path3)) /\
    (forall c, (forall u, In u (nodes path3) ->
                          dict_get [(0, 0); (1, 0); (2, 0)] u = Some c) ->
               n = Z.of_nat (length (edges path3))).
Proof.
  apply (cost_at_most_edges path3 [(0, 0); (1, 0); (2, 0)]); [exact wf_path3|].
  intros u Hu. vm_compute in Hu.
  destruct Hu as [<-|[<-|[<-|[]]]]; eexists; reflexivity.
Defined.

Lemma dict_get_recolor f (coloring : Coloring) u :
  dict_get (recolor f coloring) u = option_map f (dict_get coloring u).
Proof.
  induction coloring as [|[k v] d IH]; [reflexivity|]. cbn.
  destruct (k =? u); [reflexivity|exact IH].
Qed.

(** X6.  The cost depends on which nodes share a colour only: renaming the
    colours by an injective function changes neither the value [cost]
    returns nor whether it raises. *)
Theorem cost_recolor f G coloring :
  (forall a b, f a = f b -> a = b) ->
  cost G (recolor f coloring) = cost G coloring.
Proof.
  intros Hinj. unfold cost. induction (edges G) as [|[u v] es IH]; [reflexivity|].
  cbn [cost_edges]. unfold getitem. rewrite !dict_get_recolor, IH.
  destruct (dict_get coloring u) as [cu|]; [|reflexivity].
  destruct (dict_get coloring v) as [cv|]; [|reflexivity]. cbn [option_map].
  destruct (cost_edges es coloring) as [n|e]; [|reflexivity].
  destruct (Z.eqb_spec cu cv) as [->|Hne].
  - now rewrite Z.eqb_refl.
  - destruct (Z.eqb_spec (f cu) (f cv)) as [Heq|_]; [|reflexivity].
    elim Hne. now apply Hinj.
Qed.

Lemma cost_recolor_witness :
  cost path3 (recolor (fun c => c + 5) [(0, 0); (1, 1); (2, 0)])
  = cost path3 [(0, 0); (1, 1); (2, 0)].
Proof.
  apply (cost_recolor (fun c => c + 5) path3 [(0, 0); (1, 1); (2, 0)]).
  intros a b H. lia.
Defined.

Lemma filter_change_bound {A : Type} (a b inc : A -> bool) (l : list A) :
  (forall e, inc e = false -> a e = b e) ->
  Z.abs (Z.of_nat (length (filter b l)) - Z.of_nat (length (filter a l)))
  <= Z.of_nat (length (filter inc l)).
Proof.
  intros H. induction l as [|e l IH]; cbn [filter length]; [lia|].
  destruct (inc e) eqn:Ei.
  - destruct (a e), (b e); cbn [length]; lia.
  - rewrite (H e Ei). destruct (b e); cbn [length]; lia.
Qed.

(** X7.  A move of [neighbor] gives one node of the colouring a colour of
    [0, n_colors) and changes the cost by at most the number of edges at
    that node. *)
Theorem neighbor_cost_change G coloring k g coloring' g' n n' :
  neighbor coloring k g = Ok (coloring', g') ->
  cost G coloring = Ok n -> cost G coloring' = Ok n' ->
  exists node c,
    In node (dict_keys coloring) /\ 0 <= c < k /\
    coloring' = dict_set coloring node c /\
    Z.abs (n' - n) <= incident G node.
Proof.
  intros E Hn Hn'. apply neighbor_inv in E.
  destruct E as (node & c & -> & Hin & Hc). exists node, c.
  split; [exact Hin|]. split; [exact Hc|]. split; [reflexivity|].
  apply cost_edges_returned in Hn, Hn'. subst n n'. unfold incident.
  apply filter_change_bound. intros [u v] Hinc. cbn [fst snd] in Hinc.
  apply orb_false_iff in Hinc. destruct Hinc as [Hu Hv].
  apply Z.eqb_neq in Hu, Hv. unfold same_color. cbn [fst snd].
  now rewrite !dict_get_set_other.
Qed.

Lemma neighbor_cost_change_witness :
  exists node c,
    In node (dict_keys [(0, 0); (1, 0); (2, 0)]) /\ 0 <= c < 2 /\
    [(0, 0); (1, 1); (2, 0)] = dict_set [(0, 0); (1, 0); (2, 0)] node c /\
    Z.abs (0 - 2) <= incident path3 node.
Proof.
  apply (neighbor_cost_change path3 [(0, 0); (1, 0); (2, 0)] 2
           (tape_of [1; 1]%nat) [(0, 0); (1, 1); (2, 0)]
           (advance (advance (tape_of [1; 1]%nat))) 2 0);
    reflexivity.
Defined.

(** ** simulated_annealing *)

Lemma sa_step_tracks_minimum {L : Libm} G k rate st g st' g' :
  sa_step G k rate st g = Ok (st', g') ->
  tracks_minimum G st -> tracks_minimum G st'.
Proof.
  intros H (Hb & Hc & Hle & Hin & Hmin). apply sa_step_inv in H.
  destruct H as (cand & g1 & nc & b & _ & E2 & _ & ->).
  unfold tracks_minimum.
  cbn [record_and_cool best_solution best_cost current_solution current_cost
         cost_history].
  destruct b.
  - unfold take. destruct (Z.ltb_spec nc (best_cost st)) as [Hlt|Hge];
      cbn [best_solution best_cost current_solution current_cost cost_history];
      unfold dict_copy.
    + repeat split; auto; try lia.
      * apply in_or_app. right. now left.
      * intros c Hc'. apply in_app_or in Hc'. destruct Hc' as [Hc'|[<-|[]]];
          [specialize (Hmin c Hc')|]; lia.
    + repeat split; auto.
      * apply in_or_app. now left.
      * intros c Hc'. apply in_app_or in Hc'. destruct Hc' as [Hc'|[<-|[]]];
          [now apply Hmin|exact Hge].
  - repeat split; auto.
    + apply in_or_app. now left.
    + intros c Hc'. apply in_app_or in Hc'. destruct Hc' as [Hc'|[<-|[]]];
        [now apply Hmin|exact Hle].
Qed.

Lemma sa_init_tracks_minimum G k t g st0 g0 :
  sa_init G k t g = Ok (st0, g0) -> tracks_minimum G st0.
Proof.
  intros H. apply sa_init_inv in H.
  destruct H as (d & _ & Hc & Hcur & Hbest & Hbc & _ & Hh).
  unfold tracks_minimum. rewrite Hcur, Hbest, Hbc, Hh. repeat split; auto.
  - lia.
  - now left.
  - intros c [<-|[]]. lia.
Qed.

Lemma sa_run_tracks_minimum {L : Libm} G k t rate n g st g' :
  sa_run G k t rate n g = Ok (st, g') -> tracks_minimum G st.
Proof.
  intros H. apply sa_run_inv in H. destruct H as (st0 & g0 & E0 & Eloop).
  refine (for_each_preserves (fun st (_ : Random) => tracks_minimum G st) _ _ _
            st0 g0 st g' (sa_init_tracks_minimum _ _ _ _ _ _ E0) Eloop).
  intros _ s g1 s' g2 _ Hs Es. exact (sa_step_tracks_minimum _ _ _ _ _ _ _ Es Hs).
Qed.

Lemma up_down_result {L : Libm} :
  libm_ok L -> SFltb zero (libm_exp minus_one) = true ->
  exists best g',
    simulated_annealing one_edge 2 one one 2 up_down_tape
    = Ok ((best, 0, [1; 0; 1]), g').
Proof.
  intros HL Hexp. destruct (up_down_run HL Hexp) as (st & g' & E & Hb & Hh).
  exists (best_solution st), g'. unfold simulated_annealing.
  rewrite (bind_ok _ _ _ _ _ E). unfold ret. now rewrite Hb, Hh.
Qed.

(** X8.  The best cost a run returns is the cost of the colouring it
    returns, and it is the minimum of the history it returns. *)
Theorem best_cost_is_minimum {L : Libm} G k t rate n g best bc hist g' :
  simulated_annealing G k t rate n g = Ok ((best, bc, hist), g') ->
  cost G best = Ok bc /\ In bc hist /\ (forall c, In c hist -> bc <= c).
Proof.
  intros H. apply simulated_annealing_inv in H.
  destruct H as (st & E & -> & -> & ->).
  destruct (sa_run_tracks_minimum _ _ _ _ _ _ _ _ E) as (Hb & _ & _ & Hin & Hmin).
  now repeat split.
Qed.

Lemma best_cost_is_minimum_witness :
  exists best g',
    simulated_annealing (L := coarse_libm) one_edge 2 one one 2 up_down_tape
    = Ok ((best, 0, [1; 0; 1]), g') /\
    cost one_edge best = Ok 0 /\ In 0 [1; 0; 1] /\
    (forall c, In c [1; 0; 1] -> 0 <= c).
Proof.
  destruct (up_down_result (L := coarse_libm) coarse_libm_ok eq_refl)
    as (best & g' & E).
  exists best, g'. split; [exact E|].
  exact (best_cost_is_minimum (L := coarse_libm) one_edge 2 one one 2
           up_down_tape best 0 [1; 0; 1] g' E).
Defined.






Lemma sa_step_colours_nodes {L : Libm} G k rate st g st' g' :
  sa_step G k rate st g = Ok (st', g') ->
  colours_nodes G k st -> colours_nodes G k st'.
Proof.
  intros H (Hk & Hc & Hbk & Hbc). apply sa_step_inv in H.
  destruct H as (cand & g1 & nc & b & E1 & _ & _ & ->).
  apply neighbor_inv in E1. destruct E1 as (node & c & -> & Hin & Hrange).
  assert (Hk' : dict_keys (dict_set (current_solution st) node c) = nodes G)
    by (rewrite dict_keys_set_present; assumption).
  assert (Hc' : colors_below k (dict_set (current_solution st) node c))
    by now apply colors_below_set.
  unfold colours_nodes.
  cbn [record_and_cool best_solution current_solution].
  destruct b; [|split; [|split; [|split]]; assumption].
  unfold take. destruct (_ <? best_cost st);
    cbn [best_solution current_solution]; unfold dict_copy;
    (split; [|split; [|split]]; assumption).
Qed.

Lemma sa_run_colours_nodes {L : Libm} G k t rate n g st g' :
  NoDup (nodes G) -> 1 <= k ->
  sa_run G k t rate n g = Ok (st, g') -> colours_nodes G k st.
Proof.
  intros Hnd Hk H. apply sa_run_inv in H. destruct H as (st0 & g0 & E0 & Eloop).
  assert (H0 : colours_nodes G k st0).
  { apply sa_init_inv in E0. destruct E0 as (d & Ed & _ & Hcur & Hbest & _).
    destruct (initial_solution_loop_spec k (nodes G) Hk [] g Hnd)
      as (d' & g1 & E' & Hkeys & Hcol & _).
    - intros x _ [].
    - intros u c Hu. discriminate.
    - unfold initial_solution in Ed. rewrite Ed in E'. injection E' as <- _.
      unfold colours_nodes. rewrite Hcur, Hbest.
      split; [|split; [|split]]; assumption. }
  refine (for_each_preserves (fun st (_ : Random) => colours_nodes G k st) _ _ _
            st0 g0 st g' H0 Eloop).
  intros _ s g1 s' g2 _ Hs Es. exact (sa_step_colours_nodes _ _ _ _ _ _ _ Es Hs).
Qed.

Lemma conflicts_zero_proper G coloring :
  wf_graph G -> total G coloring -> conflicts G coloring = 0 -> proper G coloring.
Proof.
  intros Hwf Ht H0 u v Huv.
  assert (Hu : In u (nodes G)).
  { apply (wf_closed Hwf v). now apply (wf_sym Hwf). }
  pose proof (wf_closed Hwf u v Huv) as Hv.
  destruct (Ht u Hu) as [cu Eu], (Ht v Hv) as [cv Ev].
  rewrite Eu, Ev. intros Heq. injection Heq as <-.
  pose proof (proj1 (conflicts_zero_iff G coloring) H0) as Hz.
  destruct (adjacent_edges G u v Hwf Huv) as [He|He]; apply Hz in He;
    unfold same_color in He; cbn [fst snd] in He; rewrite Eu, Ev in He;
    rewrite Z.eqb_refl in He; discriminate.
Qed.

(** What a returning run gives back, for at least one colour. *)
Lemma simulated_annealing_result {L : Libm} G k t rate n g best bc hist g' :
  wf_graph G -> 1 <= k ->
  simulated_annealing G k t rate n g = Ok ((best, bc, hist), g') ->
  dict_keys best = nodes G /\ colors_below k best /\ cost G best = Ok bc /\
  In bc hist /\ (bc = 0 -> proper G best).
Proof.
  intros Hwf Hk H. apply simulated_annealing_inv in H.
  destruct H as (st & E & -> & -> & ->).
  destruct (sa_run_colours_nodes _ _ _ _ _ _ _ _ (wf_nodes Hwf) Hk E)
    as (_ & _ & Hbk & Hbc).
  destruct (sa_run_tracks_minimum _ _ _ _ _ _ _ _ E) as (Hb & _ & _ & Hin & _).
  split; [exact Hbk|]. split; [exact Hbc|]. split; [exact Hb|].
  split; [exact Hin|]. intros H0.
  assert (Ht : total G (best_solution st)).
  { apply keys_total. intros u Hu. now rewrite Hbk. }
  apply conflicts_zero_proper; [exact Hwf|exact Ht|].
  rewrite (cost_total G _ Hwf Ht) in Hb. injection Hb as ->. exact H0.
Qed.

(** ** find_optimal_coloring *)

Lemma color_search_result {L : Libm} G t rate n best kc hist g' (fuel : nat) :
  forall k g,
    color_search fuel G t rate n k g = Some (Ok (best, kc, hist, g')) ->
    exists g1,
      k <= kc /\ simulated_annealing G kc t rate n g1 = Ok ((best, 0, hist), g').
Proof.
  induction fuel as [|fuel IH]; intros k g H; [discriminate|].
  cbn [color_search] in H.
  destruct (simulated_annealing G k t rate n g)
    as [[[[best1 bc] hist1] g2]|e] eqn:E; [|discriminate].
  destruct (Z.eqb_spec bc 0) as [->|Hne].
  - injection H as <- <- <- <-. exists g. split; [lia|exact E].
  - destruct (IH _ _ H) as (g1 & Hle & E1). exists g1. split; [lia|exact E1].
Qed.

(** X10.  What [find_optimal_coloring] returns is a proper colouring: it
    colours exactly the nodes of the graph, in their order, with colours of
    [0, n_colors), no two adjacent nodes alike; [n_colors] is at least 1 and
    the returned history contains the cost 0. *)
Theorem find_optimal_coloring_sound {L : Libm} fuel G t rate n g best k hist g' :
  wf_graph G ->
  find_optimal_coloring fuel G t rate n g = Some (Ok (best, k, hist, g')) ->
  1 <= k /\ dict_keys best = nodes G /\ colors_below k best /\
  proper G best /\ cost G best = Ok 0 /\ In 0 hist.
Proof.
  intros Hwf H. unfold find_optimal_coloring in H.
  apply color_search_result in H. destruct H as (g1 & Hk & E).
  destruct (simulated_annealing_result _ _ _ _ _ _ _ _ _ _ Hwf Hk E)
    as (Hkeys & Hcol & Hcost & Hin & Hp).
  split; [exact Hk|]. split; [exact Hkeys|]. split; [exact Hcol|].
  split; [now apply Hp|]. now split.
Qed.

Lemma find_optimal_coloring_sound_witness :
  1 <= 2 /\ dict_keys [(0, 0); (1, 1)] = nodes one_edge /\
  colors_below 2 [(0, 0); (1, 1)] /\ proper one_edge [(0, 0); (1, 1)] /\
  cost one_edge [(0, 0); (1, 1)] = Ok 0 /\ In 0 [0].
Proof.
  eapply (find_optimal_coloring_sound (L := coarse_libm) 2 one_edge ten
            slow_cooling 0 two_attempts_tape); [exact wf_one_edge|reflexivity].
Defined.

(** X11.  On a graph with an edge the search never returns fewer than two
    colours. *)
Theorem find_optimal_coloring_edge_two_colors {L : Libm} fuel G t rate n g best k hist g' u v :
  wf_graph G -> In v (neighbors G u) ->
  find_optimal_coloring fuel G t rate n g = Some (Ok (best, k, hist, g')) ->
  2 <= k.
Proof.
  intros Hwf Huv H. unfold find_optimal_coloring in H.
  apply color_search_result in H. destruct H as (g1 & Hk & E).
  destruct (simulated_annealing_result _ _ _ _ _ _ _ _ _ _ Hwf Hk E)
    as (Hkeys & Hcol & _ & _ & Hp).
  specialize (Hp eq_refl u v Huv).
  assert (Hu : In u (dict_keys best)).
  { rewrite Hkeys. apply (wf_closed Hwf v). now apply (wf_sym Hwf). }
  assert (Hv : In v (dict_keys best)).
  { rewrite Hkeys. now apply (wf_closed Hwf u). }
  apply dict_get_In_keys in Hu, Hv. destruct Hu as [cu Eu], Hv as [cv Ev].
  pose proof (Hcol u cu Eu). pose proof (Hcol v cv Ev).
  rewrite Eu, Ev in Hp. assert (cu <> cv) by congruence. lia.
Qed.

Lemma find_optimal_coloring_edge_two_colors_witness : 2 <= 2.
Proof.
  eapply (find_optimal_coloring_edge_two_colors (L := coarse_libm) 2 one_edge
            ten slow_cooling 0 two_attempts_tape [(0, 0); (1, 1)] 2 [0] _ 0 1);
    [exact wf_one_edge|now left|reflexivity].
Defined.

Lemma bind_raise_inv {A B : Type} (m : M A) (f : A -> M B) g e :
  bind m f g = Raise e ->
  m g = Raise e \/ exists a g1, m g = Ok (a, g1) /\ f a g1 = Raise e.
Proof.
  unfold bind. destruct (m g) as [[a g1]|e1].
  - intros H. right. now exists a, g1.
  - intros H. left. now injection H as <-.
Qed.

(** A loop raises what one of its iterations raises, in a state the
    iterations before have kept [I] for. *)
Lemma for_each_raises {A St : Type} (I : St -> Random -> Prop)
    (l : list A) (body : A -> St -> M St) :
  (forall x s g s' g', In x l -> I s g -> body x s g = Ok (s', g') -> I s' g') ->
  forall s g e,
    I s g -> for_each l body s g = Raise e ->
    exists x s1 g1, In x l /\ I s1 g1 /\ body x s1 g1 = Raise e.
Proof.
  induction l as [|x l IH]; intros Hbody s g e HI H; [discriminate|].
  cbn [for_each] in H. apply bind_raise_inv in H.
  destruct H as [H|(s1 & g1 & E1 & H)].
  - exists x, s, g. split; [now left|now split].
  - destruct (IH (fun y s g s' g' Hy => Hbody y s g s' g' (or_intror Hy))
                s1 g1 e (Hbody x s g s1 g1 (or_introl eq_refl) HI E1) H)
      as (y & s2 & g2 & Hy & HI2 & E2).
    exists y, s2, g2. split; [now right|now split].
Qed.




Lemma sa_empty_graph {L : Libm} k t rate n g :
  1 <= n -> simulated_annealing empty_graph k t rate n g = Raise IndexError.
Proof.
  intros Hn. destruct (range_head n Hn) as (l & El).
  unfold simulated_annealing. apply bind_raise.
  unfold sa_run. erewrite bind_ok; [|reflexivity].
  rewrite El. cbn [for_each]. apply bind_raise.
  unfold sa_step. now apply bind_raise.
Qed.
















Lemma lowest_draws_advance g : lowest_draws g -> lowest_draws (advance g).
Proof. intros H i. apply (H i). Qed.

Lemma random_randint_lowest a b g :
  lowest_draws g -> a <= b -> random_randint a b g = Ok (a, advance g).
Proof.
  intros Hg Hab. unfold random_randint, peek.
  destruct (Z.ltb_spec b a); [lia|]. rewrite Hg.
  cbn [Z.of_nat]. rewrite Z.mod_0_l by lia. now rewrite Z.add_0_r.
Qed.

Lemma initial_solution_loop_lowest k (l : list node) :
  1 <= k ->
  forall (d : Coloring) g,
    lowest_draws g ->
    (forall u, In u (dict_keys d) -> dict_get d u = Some 0) ->
    exists d' g',
      for_each l
        (fun node d => c <- random_randint 0 (k - 1) ;; ret (dict_set d node c))
        d g = Ok (d', g') /\
      (forall u, In u (dict_keys d) \/ In u l -> dict_get d' u = Some 0) /\
      lowest_draws g'.
Proof.
  intros Hk. induction l as [|x l IH]; intros d g Hg Hd.
  - exists d, g. split; [reflexivity|]. split; [|exact Hg].
    intros u [Hu|[]]. now apply Hd.
  - assert (E : random_randint 0 (k - 1) g = Ok (0, advance g))
      by (apply random_randint_lowest; [exact Hg|lia]).
    destruct (IH (dict_set d x 0) (advance g)) as (d' & g' & E' & Hd' & Hg').
    + now apply lowest_draws_advance.
    + intros u Hu. destruct (Z.eq_dec u x) as [->|Hne].
      * apply dict_get_set_same.
      * rewrite dict_get_set_other by exact Hne. apply Hd.
        apply dict_keys_set_In in Hu. destruct Hu as [Hu|Hu]; [exact Hu|contradiction].
    + exists d', g'. split; [|split; [|exact Hg']].
      * cbn [for_each]. rewrite (bind_ok _ _ _ _ _ (bind_ok _ _ _ _ _ E)).
        exact E'.
      * intros u Hu. apply Hd'. rewrite dict_keys_set_In. cbn in Hu.
        intuition congruence.
Qed.

Lemma cost_one_color G coloring c :
  wf_graph G ->
  (forall u, In u (nodes G) -> dict_get coloring u = Some c) ->
  cost G coloring = Ok (Z.of_nat (length (edges G))).
Proof.
  intros Hwf Hc.
  assert (Ht : total G coloring) by (intros u Hu; exists c; now apply Hc).
  rewrite (cost_total G coloring Hwf Ht). unfold conflicts.
  rewrite filter_all; [reflexivity|].
  intros [u v] He. destruct (edges_endpoints G u v Hwf He) as [Hu Hv].
  unfold same_color. cbn [fst snd]. rewrite (Hc u Hu), (Hc v Hv).
  apply Z.eqb_refl.
Qed.

Lemma sa_no_iteration {L : Libm} G k t rate n g d g1 c :
  n <= 0 -> initial_solution G k g = Ok (d, g1) -> cost G d = Ok c ->
  simulated_annealing G k t rate n g = Ok ((d, c, [c]), g1).
Proof.
  intros Hn Ed Ec. unfold simulated_annealing, sa_run.
  rewrite (range_empty 0 n) by lia. cbn [for_each].
  unfold sa_init. unfold bind at 1 2 3. rewrite Ed.
  unfold bind, lift. now rewrite Ec.
Qed.

(** X14.  The search need not end.  When no iteration is run and every draw
    of the generator is its lowest value, each attempt colours all nodes 0,
    so on a graph with an edge no attempt succeeds, however many colours
    are tried. *)
Theorem find_optimal_coloring_can_diverge {L : Libm} fuel G t rate n g u v :
  wf_graph G -> In v (neighbors G u) -> n <= 0 -> lowest_draws g ->
  find_optimal_coloring fuel G t rate n g = None.
Proof.
  intros Hwf Huv Hn Hg. unfold find_optimal_coloring.
  assert (Hedge : Z.of_nat (length (edges G)) <> 0).
  { destruct (adjacent_edges G u v Hwf Huv) as [He|He];
      destruct (edges G); try contradiction; cbn [length]; lia. }
  assert (Hgen : forall k g0, 1 <= k -> lowest_draws g0 ->
                              color_search fuel G t rate n k g0 = None).
  { induction fuel as [|fuel IH]; intros k g0 Hk Hg0; [reflexivity|].
    cbn [color_search].
    destruct (initial_solution_loop_lowest k (nodes G) Hk [] g0 Hg0)
      as (d & g1 & Ed & Hd & Hg1); [intros x []|].
    assert (Ec : cost G d = Ok (Z.of_nat (length (edges G)))).
    { apply (cost_one_color G d 0 Hwf). intros x Hx. apply Hd. now right. }
    rewrite (sa_no_iteration G k t rate n g0 d g1 _ Hn Ed Ec).
    destruct (Z.eqb_spec (Z.of_nat (length (edges G))) 0); [contradiction|].
    apply IH; [lia|exact Hg1]. }
  apply Hgen; [lia|exact Hg].
Qed.

Lemma find_optimal_coloring_can_diverge_witness :
  find_optimal_coloring (L := coarse_libm) 100 one_edge ten slow_cooling 0
    zero_tape
  = None.
Proof.
  apply (find_optimal_coloring_can_diverge (L := coarse_libm) 100 one_edge ten
           slow_cooling 0 zero_tape 0 1); [exact wf_one_edge|now left|lia|].
  intros i. cbn. now destruct i.
Defined.



(** ** generate_random_graph *)

Lemma for_each_map {A B St : Type} (h : A -> B) (l : list A)
    (body : B -> St -> M St) s g :
  for_each (map h l) body s g = for_each l (fun x => body (h x)) s g.
Proof.
  revert s g. induction l as [|x l IH]; intros s g; [reflexivity|].
  cbn [map for_each]. unfold bind.
  destruct (body (h x) s g) as [[s1 g1]|e]; [apply IH|reflexivity].
Qed.

Lemma for_each_flat_map {A B St : Type} (f : A -> list B) (l : list A)
    (body : B -> St -> M St) s g :
  for_each (flat_map f l) body s g
  = for_each l (fun x s => for_each (f x) body s) s g.
Proof.
  revert s g. induction l as [|x l IH]; intros s g; [reflexivity|].
  cbn [flat_map for_each]. rewrite for_each_app. unfold bind.
  destruct (for_each (f x) body s g) as [[s1 g1]|e]; [apply IH|reflexivity].
Qed.

(** The two loops of [generate_random_graph] are one loop over [pairs]. *)
Lemma generate_random_graph_flat n p g :
  generate_random_graph n p g
  = for_each (pairs n)
      (fun ij G =>
         r <- random_random ;;
         if SFltb r p then ret (add_edge G (fst ij) (snd ij)) else ret G)
      empty_graph g.
Proof.
  unfold generate_random_graph, pairs. rewrite for_each_flat_map.
  apply (for_each_ext (fun _ => True)); [|trivial|trivial].
  intros i G0 g0 _ _. now rewrite for_each_map.
Qed.

Lemma range_cons a n : a < n -> range a n = a :: range (a + 1) n.
Proof.
  intros H. unfold range.
  replace (Z.to_nat (n - a)) with (S (Z.to_nat (n - (a + 1)))) by lia.
  cbn [seq map]. f_equal; [lia|].
  rewrite <- seq_shift, map_map. apply map_ext. intros k. lia.
Qed.

Lemma pairs_from_length n (m : nat) :
  forall a, Z.of_nat m = n - a ->
            2 * Z.of_nat (length (flat_map (fun i => map (pair i) (range (i + 1) n))
                                    (range a n)))
            = (n - a) * (n - a - 1).
Proof.
  induction m as [|m IH]; intros a Hm.
  - rewrite range_empty by lia. cbn. nia.
  - rewrite range_cons by lia. cbn [flat_map].
    rewrite length_app, length_map, range_length, Nat2Z.inj_add.
    specialize (IH (a + 1)). nia.
Qed.

Lemma pairs_length n : 0 <= n -> Z.of_nat (length (pairs n)) = n * (n - 1) / 2.
Proof.
  intros Hn. unfold pairs.
  pose proof (pairs_from_length n (Z.to_nat n) 0) as H.
  rewrite Z.sub_0_r in H. specialize (H ltac:(lia)).
  apply Z.div_unique_exact; [discriminate|symmetry; exact H].
Qed.

Lemma pairs_In n i j : In (i, j) (pairs n) <-> 0 <= i < j /\ j < n.
Proof.
  unfold pairs. rewrite in_flat_map. split.
  - intros (x & Hx & H). apply in_map_iff in H. destruct H as (y & E & Hy).
    injection E as -> ->. apply range_In in Hx, Hy. lia.
  - intros H. exists i. split; [apply range_In; lia|].
    apply in_map. apply range_In. lia.
Qed.

(** The loop over a list of pairs: one draw for each, and an edge for each
    pair whose draw is below the probability. *)
Lemma draw_pairs_spec p (ps : list (node * node)) :
  forall (G : Graph) g,
  exists G' g',
    for_each ps
      (fun ij G =>
         r <- random_random ;;
         if SFltb r p then ret (add_edge G (fst ij) (snd ij)) else ret G)
      G g = Ok (G', g') /\
    tape g' = tape g /\ pos g' = (pos g + length ps)%nat /\
    forall u v,
      In v (neighbors G' u) <->
      In v (neighbors G u) \/
      exists (k : nat) i j,
        nth_error ps k = Some (i, j) /\
        SFltb (uniform (tape g (pos g + k)%nat)) p = true /\
        ((u = i /\ v = j) \/ (u = j /\ v = i)).
Proof.
  induction ps as [|[i j] ps IH]; intros G g.
  - exists G, g. cbn [for_each length]. rewrite Nat.add_0_r.
    split; [reflexivity|]. split; [reflexivity|]. split; [reflexivity|].
    intros u v. split; [now left|]. intros [H|(k & a & b & E & _)]; [exact H|].
    now destruct k.
  - cbn [for_each fst snd]. unfold bind at 1. rewrite pair_step_eq.
    destruct (IH (if SFltb (uniform (peek g)) p then add_edge G i j else G)
                (advance g)) as (G' & g' & E & Ht & Hp & Hadj).
    exists G', g'. split; [exact E|]. split; [exact Ht|].
    split; [rewrite Hp; cbn; lia|].
    intros u v. rewrite Hadj. cbn [advance tape pos]. split.
    + intros [H|(k & a & b & Ek & Hr & Huv)].
      * destruct (SFltb (uniform (peek g)) p) eqn:Er; [|now left].
        apply neighbors_add_edge in H. destruct H as [H|H]; [now left|].
        right. exists 0%nat, i, j. split; [reflexivity|].
        rewrite Nat.add_0_r. split; [exact Er|exact H].
      * right. exists (S k), a, b. split; [exact Ek|].
        rewrite <- plus_n_Sm. now split.
    + intros [H|(k & a & b & Ek & Hr & Huv)].
      * left. destruct (SFltb (uniform (peek g)) p); [|exact H].
        apply neighbors_add_edge. now left.
      * destruct k as [|k].
        -- cbn in Ek. injection Ek as <- <-. left.
           rewrite Nat.add_0_r in Hr.
           unfold peek. rewrite Hr. apply neighbors_add_edge. now right.
        -- right. exists k, a, b. split; [exact Ek|].
           rewrite <- plus_n_Sm in Hr. now split.
Qed.

(** X16.  [generate_random_graph] makes exactly one draw for each of the
    [n (n - 1) / 2] unordered pairs of [0 .. n - 1], whatever the
    probability is. *)
Theorem generate_random_graph_draws n p g :
  0 <= n ->
  exists G g',
    generate_random_graph n p g = Ok (G, g') /\
    tape g' = tape g /\
    Z.of_nat (pos g') = Z.of_nat (pos g) + n * (n - 1) / 2.
Proof.
  intros Hn. rewrite generate_random_graph_flat.
  destruct (draw_pairs_spec p (pairs n) empty_graph g)
    as (G & g' & E & Ht & Hp & _).
  exists G, g'. split; [exact E|]. split; [exact Ht|].
  rewrite Hp, Nat2Z.inj_add, pairs_length by exact Hn. reflexivity.
Qed.

Lemma generate_random_graph_draws_witness :
  exists G g',
    generate_random_graph 4 half zero_tape = Ok (G, g') /\
    tape g' = tape zero_tape /\
    Z.of_nat (pos g') = Z.of_nat (pos zero_tape) + 4 * (4 - 1) / 2.
Proof.
  apply (generate_random_graph_draws 4 half zero_tape). lia.
Defined.

(** X17.  In the graph [generate_random_graph] returns, two numbers are
    adjacent exactly when they are the pair number [k] of the enumeration
    [pairs] and draw number [k] was below [edge_probability]; the pairs
    enumerated are the [(i, j)] with [0 <= i], [i < j] and [j < n_nodes]. *)
Theorem generate_random_graph_edges n p g G g' :
  generate_random_graph n p g = Ok (G, g') ->
  (forall u v,
      In v (neighbors G u) <->
      exists (k : nat) i j,
        nth_error (pairs n) k = Some (i, j) /\
        SFltb (uniform (tape g (pos g + k)%nat)) p = true /\
        ((u = i /\ v = j) \/ (u = j /\ v = i))) /\
  (forall i j, In (i, j) (pairs n) <-> 0 <= i < j /\ j < n).
Proof.
  intros H. rewrite generate_random_graph_flat in H.
  destruct (draw_pairs_spec p (pairs n) empty_graph g)
    as (G1 & g1 & E & _ & _ & Hadj).
  rewrite E in H. injection H as <- <-. split; [|apply pairs_In].
  intros u v. rewrite Hadj. split; [|now right].
  intros [[]|H]. exact H.
Qed.

Lemma generate_random_graph_edges_witness :
  exists g',
    generate_random_graph 3 half first_pair_tape = Ok (one_edge, g') /\
    (In 1 (neighbors one_edge 0) <->
     exists (k : nat) i j,
       nth_error (pairs 3) k = Some (i, j) /\
       SFltb (uniform (tape first_pair_tape (pos first_pair_tape + k)%nat)) half
       = true /\
       ((0 = i /\ 1 = j) \/ (0 = j /\ 1 = i))).
Proof.
  destruct (generate_random_graph_returns 3 half first_pair_tape)
    as (G & g' & E).
  assert (EG : G = one_edge).
  { rewrite generate_random_graph_flat in E. change (pairs 3) with [(0, 1); (0, 2); (1, 2)] in E.
    cbn [for_each fst snd] in E.
    erewrite bind_ok in E; [|apply pair_step_drawn; reflexivity].
    erewrite bind_ok in E; [|apply pair_step_skipped; reflexivity].
    erewrite bind_ok in E; [|apply pair_step_skipped; reflexivity].
    now injection E as <- _. }
  subst G. exists g'. split; [exact E|].
  apply (proj1 (generate_random_graph_edges 3 half first_pair_tape one_edge g'
                  E)).
Defined.

(** X18.  With an edge probability of 1 or more every pair is drawn: the
    graph is the complete graph on [0 .. n - 1], and from two nodes on its
    node set is all of [0 .. n - 1]. *)
Theorem generate_random_graph_complete n p g G g' :
  wf_random g -> SFleb one p = true ->
  generate_random_graph n p g = Ok (G, g') ->
  (forall u v, In v (neighbors G u) <-> 0 <= u < n /\ 0 <= v < n /\ u <> v) /\
  (2 <= n -> forall x, In x (nodes G) <-> 0 <= x < n).
Proof.
  intros Hg Hp H.
  pose proof (generate_random_graph_generated n p g G g' H) as (Hwf & Hadj & Hnode).
  rewrite generate_random_graph_flat in H.
  destruct (draw_pairs_spec p (pairs n) empty_graph g)
    as (G1 & g1 & E & _ & _ & Hiff).
  rewrite E in H. injection H as <- <-.
  assert (Hall : forall u v, 0 <= u < n -> 0 <= v < n -> u <> v ->
                             In v (neighbors G1 u)).
  { intros u v Hu Hv Hne. apply Hiff. right.
    assert (Hin : In (Z.min u v, Z.max u v) (pairs n)) by (apply pairs_In; lia).
    apply In_nth_error in Hin. destruct Hin as [k Ek].
    exists k, (Z.min u v), (Z.max u v). split; [exact Ek|]. split.
    - destruct (Hg (pos g + k)%nat) as [_ Hdraw].
      exact (SFltb_le_trans _ _ _ Hdraw Hp).
    - lia. }
  split.
  - intros u v. split; [apply Hadj|]. intros (Hu & Hv & Hne). now apply Hall.
  - intros Hn x. split.
    + intros Hx. destruct (Hnode x Hx) as [v Hv]. now apply (Hadj x v).
    + intros Hx. apply (wf_closed Hwf (if x =? 0 then 1 else 0)).
      destruct (Z.eqb_spec x 0); apply Hall; lia.
Qed.

Lemma generate_random_graph_complete_witness :
  exists G g',
    generate_random_graph 4 one zero_tape = Ok (G, g') /\
    (forall u v, In v (neighbors G u) <-> 0 <= u < 4 /\ 0 <= v < 4 /\ u <> v) /\
    (2 <= 4 -> forall x, In x (nodes G) <-> 0 <= x < 4).
Proof.
  destruct (generate_random_graph_returns 4 one zero_tape) as (G & g' & E).
  exists G, g'. split; [exact E|].
  apply (generate_random_graph_complete 4 one zero_tape G g');
    [apply wf_tape_of|reflexivity|exact E].
Defined.

(** ** plot_results *)

Lemma colors_length : Z.of_nat (length colors) = 10.
Proof. reflexivity. Qed.

Lemma display_color_mod c : display_color c = display_color (c mod 10).
Proof.
  unfold display_color. rewrite colors_length. now rewrite Z.mod_mod by lia.
Qed.

Lemma list_index_nonneg {A : Type} (l : list A) i :
  0 <= i ->
  list_index l i = match nth_error l (Z.to_nat i) with
                   | Some a => Ok a
                   | None => Raise IndexError
                   end.
Proof.
  intros H. unfold list_index.
  destruct (Z.ltb_spec i 0) as [|_]; [lia|].
  destruct (Z.ltb_spec i 0) as [|_]; [lia|reflexivity].
Qed.

Lemma display_color_returns c :
  exists name, display_color c = Ok name /\ In name colors.
Proof.
  unfold display_color. rewrite colors_length.
  pose proof (Z.mod_pos_bound c 10 ltac:(lia)) as Hm.
  rewrite list_index_nonneg by lia.
  destruct (nth_error colors (Z.to_nat (c mod 10))) as [name|] eqn:E.
  - exists name. split; [reflexivity|]. now apply nth_error_In in E.
  - apply nth_error_None in E. change (length colors) with 10%nat in E. lia.
Qed.

Lemma display_color_small_inj c1 c2 :
  0 <= c1 < 10 -> 0 <= c2 < 10 ->
  display_color c1 = display_color c2 -> c1 = c2.
Proof.
  intros H1 H2 H.
  assert (E1 : c1 = 0 \/ c1 = 1 \/ c1 = 2 \/ c1 = 3 \/ c1 = 4 \/ c1 = 5 \/
               c1 = 6 \/ c1 = 7 \/ c1 = 8 \/ c1 = 9) by lia.
  assert (E2 : c2 = 0 \/ c2 = 1 \/ c2 = 2 \/ c2 = 3 \/ c2 = 4 \/ c2 = 5 \/
               c2 = 6 \/ c2 = 7 \/ c2 = 8 \/ c2 = 9) by lia.
  clear H1 H2.
  repeat (destruct E1 as [E1|E1]); subst c1;
    repeat (destruct E2 as [E2|E2]); subst c2;
    first [reflexivity|vm_compute in H; discriminate].
Qed.

(** X19.  Two colours are drawn in the same display colour exactly when
    they are equal modulo 10, the length of the palette: up to ten colours
    are drawn apart, colour 10 is drawn as colour 0; looking a colour up
    never raises. *)
Theorem display_color_spec c1 c2 :
  (exists name, display_color c1 = Ok name /\ In name colors) /\
  (display_color c1 = display_color c2 <-> c1 mod 10 = c2 mod 10).
Proof.
  split.
  - apply display_color_returns.
  - rewrite (display_color_mod c1), (display_color_mod c2). split.
    + apply display_color_small_inj; apply Z.mod_pos_bound; lia.
    + now intros ->.
Qed.

Lemma node_colors_of_outcome (ns : list node) coloring :
  match node_colors_of ns coloring with
  | Ok names =>
      Forall2 (fun u name =>
                 exists c, dict_get coloring u = Some c /\
                           display_color c = Ok name) ns names
  | Raise e =>
      e = KeyError /\ exists u, In u ns /\ ~ In u (dict_keys coloring)
  end.
Proof.
  induction ns as [|u ns IH]; cbn [node_colors_of]; [constructor|].
  unfold getitem. destruct (dict_get coloring u) as [c|] eqn:Eu.
  2:{ split; [reflexivity|]. exists u. split; [now left|].
      intros H. apply dict_get_In_keys in H. destruct H as [c H]. congruence. }
  destruct (display_color_returns c) as [name [Ec _]]. rewrite Ec.
  destruct (node_colors_of ns coloring) as [names|e].
  - constructor; [now exists c|exact IH].
  - destruct IH as [-> (x & Hx & Hmiss)]. split; [reflexivity|].
    exists x. split; [now right|exact Hmiss].
Qed.

(** X20.  [node_colors] never fails on an index: for a colouring that
    covers the nodes it returns one display colour per node, that of the
    node's colour; otherwise it raises [KeyError], for a node the colouring
    lacks. *)
Theorem node_colors_outcome G coloring :
  (forall names,
      node_colors G coloring = Ok names ->
      length names = length (nodes G) /\
      Forall2 (fun u name =>
                 exists c, dict_get coloring u = Some c /\
                           display_color c = Ok name) (nodes G) names) /\
  (forall e,
      node_colors G coloring = Raise e ->
      e = KeyError /\ exists u, In u (nodes G) /\ ~ In u (dict_keys coloring)) /\
  (total G coloring -> exists names, node_colors G coloring = Ok names).
Proof.
  unfold node_colors.
  pose proof (node_colors_of_outcome (nodes G) coloring) as H.
  split; [|split].
  - intros names E. rewrite E in H. split; [|exact H].
    symmetry. exact (Forall2_length H).
  - intros e E. rewrite E in H. exact H.
  - intros Ht. destruct (node_colors_of (nodes G) coloring) as [names|e];
      [now exists names|].
    destruct H as [_ (u & Hu & Hmiss)]. exfalso. apply Hmiss.
    now apply (total_keys G).
Qed.

Lemma colors_used_bounds (coloring : Coloring) k :
  NoDup (dict_keys coloring) -> colors_below k coloring -> 0 <= k ->
  0 <= colors_used coloring <= k /\
  colors_used coloring <= Z.of_nat (length coloring).
Proof.
  intros Hnd Hcol Hk. unfold colors_used.
  split; [split; [lia|]|].
  - assert (Hincl : incl (nodup Z.eq_dec (map snd coloring)) (range 0 k)).
    { intros c Hc. apply nodup_In in Hc. apply in_map_iff in Hc.
      destruct Hc as ([u c'] & Ec & Hin). cbn in Ec. subst c'.
      apply range_In. apply (Hcol u). now apply dict_get_NoDup. }
    pose proof (NoDup_incl_length (NoDup_nodup Z.eq_dec (map snd coloring)) Hincl)
      as Hlen.
    rewrite range_length in Hlen. lia.
  - assert (Hincl : incl (nodup Z.eq_dec (map snd coloring)) (map snd coloring)).
    { intros c Hc. now apply nodup_In in Hc. }
    pose proof (NoDup_incl_length (NoDup_nodup Z.eq_dec (map snd coloring)) Hincl)
      as Hlen.
    rewrite length_map in Hlen. lia.
Qed.

(** X21.  The number of colours the title reports is at most the number of
    colours the search returns, and at most the number of nodes. *)
Theorem colors_used_at_most_n_colors {L : Libm} fuel G t rate n g best k hist g' :
  wf_graph G ->
  find_optimal_coloring fuel G t rate n g = Some (Ok (best, k, hist, g')) ->
  0 <= colors_used best <= k /\
  colors_used best <= Z.of_nat (length (nodes G)).
Proof.
  intros Hwf H. unfold find_optimal_coloring in H.
  apply color_search_result in H. destruct H as (g1 & Hk & E).
  destruct (simulated_annealing_result _ _ _ _ _ _ _ _ _ _ Hwf Hk E)
    as (Hkeys & Hcol & _).
  destruct (colors_used_bounds best k) as [H1 H2];
    [rewrite Hkeys; exact (wf_nodes Hwf)|exact Hcol|lia|].
  split; [exact H1|].
  rewrite <- Hkeys. unfold dict_keys. now rewrite length_map.
Qed.

Lemma colors_used_at_most_n_colors_witness :
  0 <= colors_used [(0, 0); (1, 1)] <= 2 /\
  colors_used [(0, 0); (1, 1)] <= Z.of_nat (length (nodes one_edge)).
Proof.
  eapply (colors_used_at_most_n_colors (L := coarse_libm) 2 one_edge ten
            slow_cooling 0 two_attempts_tape); [exact wf_one_edge|reflexivity].
Defined.

(** ** run_algorithm *)



(** X23.  With an edge probability that is not positive and at least one
    iteration, a click ends in an [IndexError] that the [except] clause does
    not catch, for every number of nodes. *)
Theorem run_algorithm_no_edges {L : Libm} fuel n p t rate iters g :
  wf_random g -> SFleb p zero = true -> 1 <= iters ->
  run_algorithm (S fuel) n p t rate iters g = Some (Uncaught IndexError).
Proof.
  intros Hg Hp Hi. unfold run_algorithm.
  destruct (generate_random_graph_no_edge n p g Hg Hp) as (g' & ->).
  unfold find_optimal_coloring. cbn [color_search].
  now rewrite sa_empty_graph.
Qed.

Lemma run_algorithm_no_edges_witness :
  run_algorithm (L := coarse_libm) 1 20 zero ten slow_cooling 1000 zero_tape
  = Some (Uncaught IndexError).
Proof.
  apply (run_algorithm_no_edges (L := coarse_libm) 0 20 zero ten slow_cooling
           1000 zero_tape);
    [apply wf_tape_of|reflexivity|lia].
Defined.

(** ** The cost history *)

Lemma cost_in_bounds G coloring c :
  cost G coloring = Ok c -> 0 <= c <= Z.of_nat (length (edges G)).
Proof.
  intros H. apply cost_edges_returned in H. subst c.
  pose proof (filter_length_le (same_color coloring) (edges G)). lia.
Qed.

Lemma sa_loop_history_bounds {L : Libm} G k rate (l : list Z) :
  forall st g st' g',
    for_each l (fun _ => sa_step G k rate) st g = Ok (st', g') ->
    cost G (current_solution st) = Ok (current_cost st) ->
    (forall c, In c (cost_history st) -> 0 <= c <= Z.of_nat (length (edges G))) ->
    forall c, In c (cost_history st') -> 0 <= c <= Z.of_nat (length (edges G)).
Proof.
  induction l as [|x l IH]; intros st g st' g' H Hc Hh.
  - cbn in H. injection H as <- _. exact Hh.
  - cbn [for_each] in H. apply bind_inv in H. destruct H as (st1 & g1 & E1 & H).
    pose proof (sa_step_current _ _ _ _ _ _ _ E1 Hc) as Hc1.
    apply (IH st1 g1 st' g' H Hc1).
    intros c Hin. rewrite (sa_step_history _ _ _ _ _ _ _ E1) in Hin.
    apply in_app_or in Hin. destruct Hin as [Hin|[<-|[]]]; [now apply Hh|].
    exact (cost_in_bounds _ _ _ Hc1).
Qed.

(** X24.  Every entry of the history a run returns is a cost the graph can
    have: it lies between 0 and the number of edges. *)
Theorem cost_history_bounds {L : Libm} G k t rate n g best bc hist g' :
  simulated_annealing G k t rate n g = Ok ((best, bc, hist), g') ->
  forall c, In c hist -> 0 <= c <= Z.of_nat (length (edges G)).
Proof.
  intros H. apply simulated_annealing_inv in H.
  destruct H as (st & E & _ & _ & ->).
  apply sa_run_inv in E. destruct E as (st0 & g0 & E0 & Eloop).
  apply sa_init_inv in E0.
  destruct E0 as (d & _ & Hc & Hcur & _ & _ & _ & Hh).
  apply (sa_loop_history_bounds _ _ _ _ _ _ _ _ Eloop).
  - now rewrite Hcur.
  - intros c Hin. rewrite Hh in Hin. destruct Hin as [<-|[]].
    exact (cost_in_bounds _ _ _ Hc).
Qed.

Lemma cost_history_bounds_witness :
  exists best g',
    simulated_annealing (L := coarse_libm) one_edge 2 one one 2 up_down_tape
    = Ok ((best, 0, [1; 0; 1]), g') /\
    forall c, In c [1; 0; 1] -> 0 <= c <= Z.of_nat (length (edges one_edge)).
Proof.
  destruct (up_down_result (L := coarse_libm) coarse_libm_ok eq_refl)
    as (best & g' & E).
  exists best, g'. split; [exact E|].
  exact (cost_history_bounds (L := coarse_libm) one_edge 2 one one 2
           up_down_tape best 0 [1; 0; 1] g' E).
Defined.
